(** * SelfMap: a map from a unique property of objects to the objects

    A verification development for [src/index.ts].  The class [SelfMap<T, K>]
    keeps an array of object references ([#values]) and the name of one
    property ([#uniqueProperty]); the key of an element is read from the
    element each time it is needed.

    The embedding is a shallow one over an explicit store: objects and arrays
    live in a heap and are handled through their identities, because the
    class shares its elements (and, after construction, its array) with the
    caller.  Every method takes the receiver and the store and returns what
    it returns in the source together with the store it leaves. *)

From Stdlib Require Import ZArith Ascii.
From stdpp Require Import gmap strings list pretty.

Open Scope string_scope.
Open Scope list_scope.

(** ** JavaScript values *)

Module JS.

(** Identities of heap objects (the records of type [T]) and of arrays. *)
Abbreviation loc := positive (only parsing).
Abbreviation aloc := positive (only parsing).

(** Numbers, as far as [===] and string conversion tell them apart: [NaN],
    which [===] finds different from every number, itself included, and the
    other numbers, compared by value.  The integers stand for the latter (an
    [id] is one); [+0] and [-0] are one value for [===] and for [ToString]. *)
Inductive number :=
  | NaN
  | Num (z : Z).

Inductive value :=
  | VUndefined
  | VNull
  | VBoolean (b : bool)
  | VNumber (n : number)
  | VBigInt (z : Z)
  | VString (s : string)
  | VObject (l : loc).

(** The [typeof] operator. *)
Definition typeof (v : value) : string :=
  match v with
  | VUndefined => "undefined"
  | VNull => "object"
  | VBoolean _ => "boolean"
  | VNumber _ => "number"
  | VBigInt _ => "bigint"
  | VString _ => "string"
  | VObject _ => "object"
  end.

Definition number_equal (x y : number) : bool :=
  match x, y with
  | Num a, Num b => Z.eqb a b
  | _, _ => false
  end.

(** The [===] operator (IsStrictlyEqual): no conversion, numbers by
    [number_equal], objects by identity. *)
Definition strict_equal (x y : value) : bool :=
  match x, y with
  | VUndefined, VUndefined => true
  | VNull, VNull => true
  | VBoolean a, VBoolean b => Bool.eqb a b
  | VNumber a, VNumber b => number_equal a b
  | VBigInt a, VBigInt b => Z.eqb a b
  | VString a, VString b => String.eqb a b
  | VObject a, VObject b => Pos.eqb a b
  | _, _ => false
  end.

(** An object is the list of its own properties in creation order (the
    order in which the console shows them); the elements of a [SelfMap] are
    data objects, without accessors. *)
Definition object := list (string * value).

(** [o[p]]: [undefined] for a property the object does not have. *)
Fixpoint get_property (o : object) (p : string) : value :=
  match o with
  | [] => VUndefined
  | (q, v) :: rest => if String.eqb q p then v else get_property rest p
  end.

(** [o[p] = v]: overwrites the property where it stands, or creates it
    after the existing ones. *)
Fixpoint set_property (o : object) (p : string) (v : value) : object :=
  match o with
  | [] => [(p, v)]
  | (q, w) :: rest =>
      if String.eqb q p then (q, v) :: rest else (q, w) :: set_property rest p v
  end.

(** The heap: the objects and the arrays of objects ([T[]]) by identity. *)
Record store := Store {
  objects : gmap loc object;
  arrays : gmap aloc (list loc)
}.

Definition read_object (σ : store) (l : loc) : object :=
  default [] (objects σ !! l).

Definition read_array (σ : store) (a : aloc) : list loc :=
  default [] (arrays σ !! a).

Definition write_array (σ : store) (a : aloc) (l : list loc) : store :=
  {| objects := objects σ; arrays := <[a := l]> (arrays σ) |}.

(** [ele[p]] for an element held by reference. *)
Definition get_field (σ : store) (ele : loc) (p : string) : value :=
  get_property (read_object σ ele) p.

(** [r[p] = v] done by code outside the class, on an object it holds a
    reference to. *)
Definition set_field (σ : store) (r : loc) (p : string) (v : value) : store :=
  {| objects := <[r := set_property (read_object σ r) p v]> (objects σ);
     arrays := arrays σ |}.

Definition newline : string := String "010"%char EmptyString.

Definition number_to_string (n : number) : string :=
  match n with
  | NaN => "NaN"
  | Num z => pretty z
  end.

(** [ToString], the conversion a template literal applies to [${v}].  An
    object without a [toString] of its own gets [Object.prototype.toString]. *)
Definition ToString (v : value) : string :=
  match v with
  | VUndefined => "undefined"
  | VNull => "null"
  | VBoolean true => "true"
  | VBoolean false => "false"
  | VNumber n => number_to_string n
  | VBigInt z => pretty z
  | VString s => s
  | VObject _ => "[object Object]"
  end.

End JS.

(** ** The methods of [Array.prototype] the class calls *)

Module Array.
Section Methods.
Context {A : Type}.

(** [arr.some(p)] *)
Fixpoint some (p : A → bool) (arr : list A) : bool :=
  match arr with
  | [] => false
  | x :: rest => if p x then true else some p rest
  end.

(** [arr.findIndex(p)]; [None] stands for the result [-1]. *)
Fixpoint findIndex (p : A → bool) (arr : list A) : option nat :=
  match arr with
  | [] => None
  | x :: rest => if p x then Some 0 else S <$> findIndex p rest
  end.

(** [arr.map(f)], a new array. *)
Definition map {B} (f : A → B) (arr : list A) : list B := f <$> arr.

(** [arr.push(x)], the array afterwards. *)
Definition push (arr : list A) (x : A) : list A := arr ++ [x].

(** [arr.splice(start, deleteCount)] for [start] within the array: the
    removed elements and the array afterwards. *)
Definition splice (arr : list A) (start deleteCount : nat) : list A * list A :=
  (take deleteCount (drop start arr),
   take start arr ++ drop (start + deleteCount) arr).

(** [arr[i] = x] for an [i] that [findIndex] returned.  With [-1] the
    assignment creates a property named ["-1"], which is no element: the
    length and the elements, all that the methods here read, stay. *)
Definition assign (arr : list A) (i : option nat) (x : A) : list A :=
  match i with
  | Some i => <[i := x]> arr
  | None => arr
  end.
End Methods.
End Array.

(** ** The class *)

Module SelfMap.
Import JS.

(** An instance: its two private fields. *)
Record t := New {
  hash_values : aloc;            (* #values: T[] *)
  hash_uniqueProperty : string   (* readonly #uniqueProperty: K *)
}.

(** [constructor(objects, uniqueProperty)]: the array is kept, not copied. *)
Definition constructor (objects : aloc) (uniqueProperty : string) : t :=
  {| hash_values := objects; hash_uniqueProperty := uniqueProperty |}.

(** [get uniqueProperty()] *)
Definition uniqueProperty (this : t) : string := hash_uniqueProperty this.

(** The elements of [this.#values] in the store. *)
Definition elements (this : t) (σ : store) : list loc :=
  read_array σ (hash_values this).

(** [get size()] *)
Definition size (this : t) (σ : store) : nat := length (elements this σ).

(** [ele[this.#uniqueProperty]] *)
Definition key_of (this : t) (σ : store) (ele : loc) : value :=
  get_field σ ele (hash_uniqueProperty this).

(** [#isKey(value)] *)
Definition isKey (value : value) : bool :=
  String.eqb (typeof value) "string" || String.eqb (typeof value) "number".

(** [has(keyOrValue)] *)
Definition has (this : t) (σ : store) (keyOrValue : value) : bool :=
  if isKey keyOrValue
  then Array.some (λ ele, strict_equal (key_of this σ ele) keyOrValue)
         (elements this σ)
  else Array.some (λ ele, strict_equal (VObject ele) keyOrValue)
         (elements this σ).

(** [add(value)]: the receiver, which it returns, and the store. *)
Definition add (this : t) (σ : store) (value : loc) : t * store :=
  if negb (has this σ (VObject value)) then
    if has this σ (key_of this σ value) then
      let index :=
        Array.findIndex
          (λ ele, strict_equal (key_of this σ ele) (key_of this σ value))
          (elements this σ) in
      (this, write_array σ (hash_values this)
               (Array.assign (elements this σ) index value))
    else
      (this, write_array σ (hash_values this)
               (Array.push (elements this σ) value))
  else (this, σ).

(** The loop of [get]: the first element whose key is [key]. *)
Fixpoint get_loop (this : t) (σ : store) (key : value) (rest : list loc) : value :=
  match rest with
  | [] => VUndefined
  | ele :: rest =>
      if strict_equal (key_of this σ ele) key then VObject ele
      else get_loop this σ key rest
  end.

(** [get(key)] *)
Definition get (this : t) (σ : store) (key : value) : value :=
  get_loop this σ key (elements this σ).

(** [clear()]: the field [#values] is given a new, empty array. *)
Definition clear (this : t) (σ : store) : t * store :=
  let a := fresh (dom (arrays σ)) in
  ({| hash_values := a; hash_uniqueProperty := hash_uniqueProperty this |},
   write_array σ a []).

(** [delete(keyOrValue)]: what it returns and the store.  [index] is within
    the array when it is not [-1], so [splice] returns one element. *)
Definition delete (this : t) (σ : store) (keyOrValue : value) : value * store :=
  let isKey := isKey keyOrValue in
  let index :=
    if isKey
    then Array.findIndex (λ ele, strict_equal (key_of this σ ele) keyOrValue)
           (elements this σ)
    else Array.findIndex (λ ele, strict_equal (VObject ele) keyOrValue)
           (elements this σ) in
  match index with
  | None => (VUndefined, σ)
  | Some index =>
      let '(removed, rest) := Array.splice (elements this σ) index 1 in
      let σ' := write_array σ (hash_values this) rest in
      match removed !! 0 with
      | Some ele => if isKey then (VObject ele, σ') else (key_of this σ' ele, σ')
      | None => (VUndefined, σ')
      end
  end.

(** *** Iterators *)

(** The iterator of an array that nothing else refers to: the result of
    [map] in [keys] and [entries].  [Iterator.from] returns the array's own
    iterator. *)
Record OwnIterator (A : Type) := OwnIter {
  own_items : option (list A);   (* the array; gone once exhausted *)
  own_index : nat
}.
Arguments OwnIter {A}.
Arguments own_items {A}.
Arguments own_index {A}.

(** [it.next()] *)
Definition own_next {A} (it : OwnIterator A) : option A * OwnIterator A :=
  match own_items it with
  | None => (None, it)
  | Some arr =>
      match arr !! own_index it with
      | Some x => (Some x, OwnIter (Some arr) (S (own_index it)))
      | None => (None, OwnIter None (own_index it))
      end
  end.

(** The iterator of an array in the store: it holds the array's identity
    and reads the array at each step. *)
Record ArrayIterator := ArrayIter {
  iterated : option aloc;   (* the array; gone once exhausted *)
  nextIndex : nat
}.

(** [it.next()] *)
Definition next (σ : store) (it : ArrayIterator) : option loc * ArrayIterator :=
  match iterated it with
  | None => (None, it)
  | Some a =>
      match read_array σ a !! nextIndex it with
      | Some x => (Some x, ArrayIter (Some a) (S (nextIndex it)))
      | None => (None, ArrayIter None (nextIndex it))
      end
  end.

(** [keys()]: [map] builds the array of the keys when [keys] is called. *)
Definition keys (this : t) (σ : store) : OwnIterator value :=
  OwnIter (Some (Array.map (λ ele, key_of this σ ele) (elements this σ))) 0.

(** [values()]: the iterator of [this.#values] itself. *)
Definition values (this : t) (σ : store) : ArrayIterator :=
  ArrayIter (Some (hash_values this)) 0.

(** [entries()]: the pairs [[key, ele]], built when [entries] is called. *)
Definition entries (this : t) (σ : store) : OwnIterator (value * loc) :=
  OwnIter
    (Some (Array.map (λ ele, (key_of this σ ele, ele)) (elements this σ))) 0.

(** [[Symbol.iterator]()] *)
Definition iterator (this : t) (σ : store) : OwnIterator (value * loc) :=
  entries this σ.

(** *** Rendering *)

(** The header [`SelfMap(${this.size}) {`] *)
Definition header (this : t) (σ : store) : string :=
  "SelfMap(" +:+ pretty (size this σ) +:+ ") {".

(** [print()]: the calls of [console.log] it makes, each with its
    arguments. *)
Definition print (this : t) (σ : store) : list (list value) :=
  if negb (Nat.eqb (length (elements this σ)) 0) then
    [VString (header this σ)]
    :: map (λ ele, [VString " "; key_of this σ ele; VString "=>"; VObject ele])
         (elements this σ)
    ++ [[VString "}"]]
  else [[VString (header this σ +:+ "}")]].

(** [log()] *)
Definition log (this : t) (σ : store) : list (list value) := print this σ.

(** [toString()] *)
Definition toString (this : t) (σ : store) : string :=
  if Nat.eqb (length (elements this σ)) 0 then header this σ +:+ "}"
  else
    let str := header this σ +:+ newline in
    let str :=
      foldl (λ str ele,
               str +:+ "  " +:+ ToString (key_of this σ ele) +:+ " => "
                   +:+ ToString (VObject ele) +:+ newline)
        str (elements this σ) in
    str +:+ "}".

(** *** [forEach] *)

(** A callback given to [forEach], by what one call of it does: from its
    receiver (the [this] of its body), the element, the key of the element
    and the state before, the state after.  The state is the fields of the
    instance (its third argument, on which it can call the methods), the
    store, and the state [St] of the code the callback belongs to.  A
    callback that throws is not described. *)
Definition callback (St : Type) : Type :=
  value → loc → value → t * store * St → t * store * St.

(** [Array.prototype.forEach] on the array [a], with the function
    [ele => callbackfn(ele, ele[this.#uniqueProperty], this)]: the indices
    from [k] up to the length the array had when [forEach] was called ([n]
    of them are left), each read when its turn comes and passed over when
    the array has become too short to hold it.  The key is read as the
    element is visited.  The function is an arrow function, which has no
    receiver of its own, and calls [callbackfn] as a plain function: the
    receiver of [callbackfn] is [undefined]. *)
Fixpoint forEach_loop {St} (a : aloc) (callbackfn : callback St) (k n : nat)
    (w : t * store * St) : t * store * St :=
  match n with
  | 0 => w
  | S n =>
      match read_array (snd (fst w)) a !! k with
      | Some ele =>
          forEach_loop a callbackfn (S k) n
            (callbackfn VUndefined ele (key_of (fst (fst w)) (snd (fst w)) ele) w)
      | None => forEach_loop a callbackfn (S k) n w
      end
  end.

(** [forEach(callbackfn, thisArg)], called by code whose state is [s]. *)
Definition forEach {St} (this : t) (σ : store) (s : St)
    (callbackfn : callback St) (thisArg : value) : t * store * St :=
  forEach_loop (hash_values this) callbackfn 0 (length (elements this σ))
    (this, σ, s).

End SelfMap.

(** ** The console *)

(** What [console.log] writes under Node.js for the values above, where the
    text of an object fits on one line: [util.inspect] shows an object
    by its properties, down to two levels below the argument. *)
Module Console.
Import JS.

Fixpoint inspect (depth : nat) (σ : store) (v : value) : string :=
  match v with
  | VString s => "'" +:+ s +:+ "'"
  | VBigInt z => pretty z +:+ "n"
  | VObject l =>
      match depth with
      | 0 => "[Object]"
      | S depth =>
          match read_object σ l with
          | [] => "{}"
          | props =>
              "{ " +:+ String.concat ", "
                         (map (λ pv, fst pv +:+ ": " +:+ inspect depth σ (snd pv))
                            props)
                   +:+ " }"
          end
      end
  | _ => ToString v
  end.

(** An argument of [console.log]: a string is written as it is, any
    other value as [inspect] shows it. *)
Definition format_argument (σ : store) (v : value) : string :=
  match v with
  | VString s => s
  | _ => inspect 3 σ v
  end.

(** One call, whose first argument holds no format directive: the
    arguments separated by one space. *)
Definition format_call (σ : store) (args : list value) : string :=
  String.concat " " (map (format_argument σ) args).

(** The lines written by a sequence of calls. *)
Definition output (σ : store) (calls : list (list value)) : list string :=
  map (format_call σ) calls.

(** The lines of a text. *)
Fixpoint lines (s : string) : list string :=
  match s with
  | EmptyString => [EmptyString]
  | String c rest =>
      if Ascii.eqb c "010"%char then EmptyString :: lines rest
      else match lines rest with
           | l :: ls => String c l :: ls
           | [] => [String c EmptyString]
           end
  end.

End Console.

(** ** Running iterators and sequences of operations *)

Module Run.
Import JS SelfMap.

(** At most [n] calls of [next] on an iterator of [keys] or [entries], as
    a [for ... of] loop makes them: what they yield, up to the call that
    reports the end, and the iterator afterwards. *)
Fixpoint own_collect {A} (n : nat) (it : OwnIterator A) : list A * OwnIterator A :=
  match n with
  | 0 => ([], it)
  | S n =>
      match own_next it with
      | (Some x, it') => let '(xs, it'') := own_collect n it' in (x :: xs, it'')
      | (None, it') => ([], it')
      end
  end.

(** The same for an iterator of [values], in a store that does not change
    meanwhile. *)
Fixpoint collect (n : nat) (σ : store) (it : ArrayIterator) : list loc * ArrayIterator :=
  match n with
  | 0 => ([], it)
  | S n =>
      match next σ it with
      | (Some x, it') => let '(xs, it'') := collect n σ it' in (x :: xs, it'')
      | (None, it') => ([], it')
      end
  end.

(** What code that holds an instance can do with it and with the objects
    it shares with it. *)
Inductive operation :=
  | OpGet (key : value)
  | OpHas (keyOrValue : value)
  | OpAdd (value : loc)
  | OpDelete (keyOrValue : value)
  | OpClear
  | OpKeys (n : nat)        (* iterate [keys()] for up to [n] steps *)
  | OpValues (n : nat)
  | OpEntries (n : nat)
  | OpPrint
  | OpToString
  | OpAssign (r : loc) (p : string) (v : value).   (* [r[p] = v] *)

(** The instance and the store after an operation. *)
Definition step (c : t * store) (o : operation) : t * store :=
  let '(this, σ) := c in
  match o with
  | OpGet key => let _ := get this σ key in (this, σ)
  | OpHas x => let _ := has this σ x in (this, σ)
  | OpAdd value => add this σ value
  | OpDelete x => (this, snd (delete this σ x))
  | OpClear => clear this σ
  | OpKeys n => let _ := own_collect n (keys this σ) in (this, σ)
  | OpValues n => let _ := collect n σ (values this σ) in (this, σ)
  | OpEntries n => let _ := own_collect n (entries this σ) in (this, σ)
  | OpPrint => let _ := print this σ in (this, σ)
  | OpToString => let _ := toString this σ in (this, σ)
  | OpAssign r p v => (this, set_field σ r p v)
  end.

Definition run (ops : list operation) (c : t * store) : t * store :=
  foldl step c ops.

(** *** Predicates of the statements *)

(** [i] is the first position of [arr] whose element, [x], satisfies [p]. *)
Definition first_match {A} (p : A → bool) (arr : list A) (i : nat) (x : A) : Prop :=
  arr !! i = Some x ∧ p x = true ∧
  ∀ j y, j < i → arr !! j = Some y → p y = false.

(** The test [delete] gives to [findIndex], by the shape of its argument. *)
Definition delete_test (this : t) (σ : store) (x : value) : loc → bool :=
  if isKey x then (λ ele, strict_equal (key_of this σ ele) x)
  else (λ ele, strict_equal (VObject ele) x).

(** No value of the list is [===] to a later one. *)
Fixpoint pairwise_distinct (ks : list value) : bool :=
  match ks with
  | [] => true
  | k :: rest => negb (Array.some (strict_equal k) rest) && pairwise_distinct rest
  end.

(** The keys of the elements, in the order of the array. *)
Definition current_keys (this : t) (σ : store) : list value :=
  map (key_of this σ) (elements this σ).

(** The elements have keys that differ from one another. *)
Definition unique_keys (this : t) (σ : store) : Prop :=
  pairwise_distinct (current_keys this σ) = true.

(** The operation is a call of a method of the class, not an assignment by
    code outside. *)
Definition own_operation (o : operation) : bool :=
  match o with
  | OpAssign _ _ _ => false
  | _ => true
  end.

(** If the operation is [add(value)], the key of [value] is a string or a
    number. *)
Definition adds_key (this : t) (σ : store) (o : operation) : bool :=
  match o with
  | OpAdd value => isKey (key_of this σ value)
  | _ => true
  end.

End Run.

(** ** The objects of the README *)

Module Example.
Import JS SelfMap.

Definition user (id : value) (name : string) (age : Z) : object :=
  [("id", id); ("name", VString name); ("age", VNumber (Num age))].

Definition ahmed : loc := 1%positive.
Definition sara : loc := 2%positive.
Definition bob : loc := 3%positive.
Definition yousef : loc := 4%positive.

(** The array [[ahmed, sara, bob]] given to the constructor. *)
Definition users_array : aloc := 1%positive.

Definition heap : store :=
  {| objects :=
       <[ahmed := user (VNumber (Num 1)) "Ahmed" 18]>
         (<[sara := user (VNumber (Num 2)) "Sara" 20]>
            (<[bob := user (VNumber (Num 3)) "Bob" 25]>
               (<[yousef := user (VNumber (Num 4)) "Yousef" 30]> ∅)));
     arrays := <[users_array := [ahmed; sara; bob]]> ∅ |}.

(** [new SelfMap<User, "id">([ahmed, sara, bob], "id")] *)
Definition Users : t := constructor users_array "id".

(** Two accounts whose [id] is the same [bigint], the first one stored. *)
Definition first_account : loc := 5%positive.
Definition second_account : loc := 6%positive.
Definition accounts_array : aloc := 2%positive.

Definition ledger : store :=
  {| objects :=
       <[first_account := user (VBigInt 10) "Ahmed" 18]>
         (<[second_account := user (VBigInt 10) "Sara" 20]> ∅);
     arrays := <[accounts_array := [first_account]]> ∅ |}.

Definition Accounts : t := constructor accounts_array "id".

(** A callback of the code that made [Users]: it marks the element it is
    given, notes its key, and pushes [yousef] onto the array it gave to the
    constructor:
    [(ele, key) => { ele.seen = true; keys.push(key); array.push(yousef) }]. *)
Definition note_and_push : callback (list value) :=
  λ receiver ele key w,
    let σ := set_field (snd (fst w)) ele "seen" (VBoolean true) in
    (fst (fst w),
     write_array σ users_array (Array.push (read_array σ users_array) yousef),
     snd w ++ [key]).

End Example.

(** ** Statements that are compared with the code as they are worded *)

Module Stated.
Import JS SelfMap Run.

(** The live-key property for any new value: after [r[f] = newValue],
    where no other element has the old or the new key, [get(newValue)] is
    [r] and [get(oldValue)] is [undefined]. *)
Definition live_key (this : t) (σ : store) (r : loc) (newValue : value) : Prop :=
  let oldValue := key_of this σ r in
  let σ' := set_field σ r (uniqueProperty this) newValue in
  r ∈ elements this σ →
  (∀ o, o ∈ elements this σ → o ≠ r →
     strict_equal (key_of this σ o) oldValue = false ∧
     strict_equal (key_of this σ o) newValue = false) →
  get this σ' newValue = VObject r ∧ get this σ' oldValue = VUndefined.

(** Keys computed when the iterator is advanced: the iterator obtained in
    [σ] and run in [σ'] yields the keys the elements have in [σ']. *)
Definition keys_at_iteration (this : t) (σ σ' : store) : Prop :=
  ∀ n, length (elements this σ') < n →
    fst (own_collect n (keys this σ)) = current_keys this σ'.

(** The same for the keys in the pairs of [entries]. *)
Definition entries_at_iteration (this : t) (σ σ' : store) : Prop :=
  ∀ n, length (elements this σ') < n →
    fst (own_collect n (entries this σ))
    = map (λ ele, (key_of this σ' ele, ele)) (elements this σ').

(** Upsert for any key [k]: [B], which is not stored and has the key [k] of
    the element [A] at [i], the first with that key, takes the place of
    [A]. *)
Definition upsert (this : t) (σ : store) (A B : loc) (i : nat) (k : value) : Prop :=
  elements this σ !! i = Some A →
  key_of this σ A = k →
  key_of this σ B = k →
  (∀ j e, j < i → elements this σ !! j = Some e → key_of this σ e ≠ k) →
  B ∉ elements this σ →
  fst (add this σ B) = this ∧
  elements this (snd (add this σ B)) = <[i := B]> (elements this σ) ∧
  size this (snd (add this σ B)) = size this σ.

(** Uniqueness of the keys kept by [add] for any object. *)
Definition add_of_any_object_keeps_keys_unique (this : t) (σ : store) (value : loc) : Prop :=
  unique_keys this σ → unique_keys this (snd (add this σ value)).

(** [print] and [toString] give the same lines. *)
Definition same_lines (this : t) (σ : store) : Prop :=
  Console.output σ (print this σ) = Console.lines (toString this σ).

End Stated.

(** * Properties *)

Import JS SelfMap Run.

(** Two steps for lists that are written out: [H : x ∈ [a; b; ...]] with
    [x] none of them is absurd; and a goal about every [x] of such a list
    is proved element by element. *)
Ltac not_stored H :=
  repeat (apply elem_of_cons in H as [H|H]; [done|]);
  by apply elem_of_nil in H.

Ltac each_element H tac :=
  repeat (apply elem_of_cons in H as [->|H]; [tac|]);
  by apply elem_of_nil in H.

(** ** Strict equality and property access *)

Section StrictEquality.
Implicit Types x y z : value.

Lemma number_equal_eq (a b : number) : number_equal a b = true → a = b.
Proof.
  destruct a, b; simpl; try discriminate.
  intros H%Z.eqb_eq. by subst.
Qed.

Lemma strict_equal_eq x y : strict_equal x y = true → x = y.
Proof.
  destruct x, y; simpl; try discriminate; try done.
  - intros H%Bool.eqb_prop. by subst.
  - intros H%number_equal_eq. by subst.
  - intros H%Z.eqb_eq. by subst.
  - intros H%String.eqb_eq. by subst.
  - intros H%Pos.eqb_eq. by subst.
Qed.

Lemma strict_equal_sym x y : strict_equal x y = strict_equal y x.
Proof.
  destruct x as [| |a|[|a]|a|a|a], y as [| |b|[|b]|b|b|b]; simpl; try done.
  - by destruct a, b.
  - apply Z.eqb_sym.
  - apply Z.eqb_sym.
  - apply String.eqb_sym.
  - apply Pos.eqb_sym.
Qed.

(** Every value but [NaN] is [===] to itself. *)
Lemma strict_equal_refl x : x ≠ VNumber NaN → strict_equal x x = true.
Proof.
  destruct x as [| |a|[|a]|a|a|a]; simpl; intros H; try done.
  - by destruct a.
  - apply Z.eqb_refl.
  - apply Z.eqb_refl.
  - apply String.eqb_refl.
  - apply Pos.eqb_refl.
Qed.

Lemma strict_equal_NaN x : strict_equal x (VNumber NaN) = false.
Proof. by destruct x as [| |a|[|a]|a|a|a]. Qed.

Lemma strict_equal_object (a b : loc) :
  strict_equal (VObject a) (VObject b) = true ↔ a = b.
Proof. simpl. apply Pos.eqb_eq. Qed.

Lemma isKey_typeof x :
  isKey x = true ↔ typeof x = "string" ∨ typeof x = "number".
Proof.
  unfold isKey. rewrite orb_true_iff, !String.eqb_eq. tauto.
Qed.

Lemma isKey_object (l : loc) : isKey (VObject l) = false.
Proof. done. Qed.
End StrictEquality.

Section Properties.
Implicit Types (o : object) (p q : string) (v : value).

Lemma get_set_property o p v : get_property (set_property o p v) p = v.
Proof.
  induction o as [|[q w] o IH]; simpl.
  - by rewrite String.eqb_refl.
  - destruct (String.eqb q p) eqn:E; simpl; rewrite E; done.
Qed.

Lemma get_set_property_ne o p q v :
  p ≠ q → get_property (set_property o p v) q = get_property o q.
Proof.
  intros Hne. induction o as [|[r w] o IH]; simpl.
  - destruct (String.eqb p q) eqn:E; [|done].
    apply String.eqb_eq in E. done.
  - destruct (String.eqb r p) eqn:E; simpl.
    + apply String.eqb_eq in E. subst r.
      destruct (String.eqb p q) eqn:E'; [|done].
      apply String.eqb_eq in E'. done.
    + by rewrite IH.
Qed.
End Properties.

Section Store.
Implicit Types (σ : store) (a : aloc) (r l : loc).

Lemma read_write_array σ a arr : read_array (write_array σ a arr) a = arr.
Proof. unfold read_array, write_array. simpl. by rewrite lookup_insert_eq. Qed.

Lemma read_write_array_ne σ a b arr :
  a ≠ b → read_array (write_array σ a arr) b = read_array σ b.
Proof.
  intros. unfold read_array, write_array. simpl. by rewrite lookup_insert_ne.
Qed.

Lemma write_array_same σ a :
  is_Some (arrays σ !! a) → write_array σ a (read_array σ a) = σ.
Proof.
  intros [arr H]. unfold write_array, read_array. rewrite H. simpl.
  destruct σ as [os ars]. simpl in *. f_equal. by apply insert_id.
Qed.

Lemma get_field_write_array σ a arr l p :
  get_field (write_array σ a arr) l p = get_field σ l p.
Proof. done. Qed.

Lemma read_array_set_field σ r p v a :
  read_array (set_field σ r p v) a = read_array σ a.
Proof. done. Qed.

Lemma get_field_set_field σ r p v : get_field (set_field σ r p v) r p = v.
Proof.
  unfold get_field, set_field, read_object. simpl.
  rewrite lookup_insert_eq. simpl. apply get_set_property.
Qed.

Lemma get_field_set_field_other σ r l p q v :
  l ≠ r → get_field (set_field σ r p v) l q = get_field σ l q.
Proof.
  intros. unfold get_field, set_field, read_object. simpl.
  by rewrite lookup_insert_ne.
Qed.

Lemma elements_write this σ arr :
  elements this (write_array σ (hash_values this) arr) = arr.
Proof. apply read_write_array. Qed.

Lemma key_of_write this σ a arr l :
  key_of this (write_array σ a arr) l = key_of this σ l.
Proof. done. Qed.
End Store.

(** ** The array methods *)

Section ArrayFacts.
Context {A : Type}.
Implicit Types (p : A → bool) (arr : list A).

Lemma some_true p arr :
  Array.some p arr = true ↔ ∃ x, x ∈ arr ∧ p x = true.
Proof.
  induction arr as [|y arr IH]; simpl.
  - split; [done | intros (x & Hx & _); by apply elem_of_nil in Hx].
  - destruct (p y) eqn:E.
    + split; [|done]. intros _. exists y. split; [left | done].
    + rewrite IH. split.
      * intros (x & Hx & Hp). exists x. split; [by right | done].
      * intros (x & Hx & Hp). apply elem_of_cons in Hx as [->|Hx].
        -- congruence.
        -- eauto.
Qed.

Lemma some_false p arr :
  Array.some p arr = false ↔ ∀ x, x ∈ arr → p x = false.
Proof.
  split.
  - intros H x Hx. destruct (p x) eqn:E; [|done].
    assert (Array.some p arr = true) by (apply some_true; eauto). congruence.
  - intros H. destruct (Array.some p arr) eqn:E; [|done].
    apply some_true in E as (x & Hx & Hp). rewrite H in Hp; done.
Qed.

Lemma findIndex_Some p arr i :
  Array.findIndex p arr = Some i ↔ ∃ x, first_match p arr i x.
Proof.
  revert i. induction arr as [|y arr IH]; intros i; simpl.
  - split; [done | intros (x & H & _); done].
  - destruct (p y) eqn:E.
    + split.
      * intros [= <-]. exists y. repeat split; [done | intros; lia].
      * intros (x & Hi & Hp & Hfirst). destruct i as [|i]; [done|].
        specialize (Hfirst 0 y ltac:(lia) eq_refl). congruence.
    + split.
      * destruct (Array.findIndex p arr) as [k|] eqn:Ek; [|done].
        intros [= <-]. destruct (proj1 (IH k) eq_refl) as (x & Hk & Hp & Hfirst).
        exists x. repeat split; [done..|].
        intros [|j] z Hj Hz; simpl in Hz; [congruence|].
        apply (Hfirst j); [lia | done].
      * intros (x & Hi & Hp & Hfirst). destruct i as [|i].
        { simpl in Hi. congruence. }
        simpl in Hi. rewrite (proj2 (IH i)); [done|].
        exists x. repeat split; [done..|].
        intros j z Hj Hz. apply (Hfirst (S j)); [lia | done].
Qed.

Lemma findIndex_None p arr :
  Array.findIndex p arr = None ↔ Array.some p arr = false.
Proof.
  induction arr as [|y arr IH]; simpl; [done|].
  destruct (p y); [done|]. rewrite <- IH.
  destruct (Array.findIndex p arr); done.
Qed.

Lemma findIndex_lt p arr i : Array.findIndex p arr = Some i → i < length arr.
Proof.
  intros (x & H & _)%findIndex_Some. by apply lookup_lt_Some in H.
Qed.

Lemma some_ext p q arr : (∀ x, p x = q x) → Array.some p arr = Array.some q arr.
Proof.
  intros H. induction arr as [|y arr IH]; simpl; [done|]. by rewrite H, IH.
Qed.

Lemma findIndex_ext p q arr :
  (∀ x, p x = q x) → Array.findIndex p arr = Array.findIndex q arr.
Proof.
  intros H. induction arr as [|y arr IH]; simpl; [done|]. by rewrite H, IH.
Qed.

Lemma some_app p arr1 arr2 :
  Array.some p (arr1 ++ arr2) = Array.some p arr1 || Array.some p arr2.
Proof.
  induction arr1 as [|y arr1 IH]; simpl; [done|]. by destruct (p y).
Qed.

Lemma some_delete p arr i :
  Array.some p arr = false → Array.some p (base.delete i arr) = false.
Proof.
  revert i. induction arr as [|y arr IH]; intros [|i]; simpl; try done.
  - by destruct (p y).
  - destruct (p y); [done|]. apply IH.
Qed.

(** [splice(i, 1)] takes out the element at [i] and nothing else. *)
Lemma splice_one arr i x :
  arr !! i = Some x → Array.splice arr i 1 = ([x], base.delete i arr).
Proof.
  intros H. unfold Array.splice. f_equal.
  - revert i H. induction arr as [|y arr IH]; intros [|i] H; simpl in *;
      try done.
    + injection H as ->. by rewrite take_0.
    + by apply IH.
  - rewrite Nat.add_1_r. revert i H.
    induction arr as [|y arr IH]; intros [|i] H; simpl in *; try done.
    f_equal. by apply IH.
Qed.

Lemma delete_take_drop arr i : base.delete i arr = take i arr ++ drop (S i) arr.
Proof.
  revert i. induction arr as [|y arr IH]; intros [|i]; simpl; try done.
  f_equal. apply IH.
Qed.
End ArrayFacts.

(** ** [get] and the live key *)

Section Get.
Implicit Types (this : t) (σ : store) (key : value) (arr : list loc).

Lemma get_loop_found this σ key arr i ele :
  first_match (λ e, strict_equal (key_of this σ e) key) arr i ele →
  get_loop this σ key arr = VObject ele.
Proof.
  revert i. induction arr as [|y arr IH]; intros i (Hi & Hp & Hfirst).
  - done.
  - destruct i as [|i]; simpl in *.
    + injection Hi as ->. by rewrite Hp.
    + rewrite (Hfirst 0 y); [|lia|done].
      apply (IH i). repeat split; [done..|].
      intros j z Hj Hz. apply (Hfirst (S j)); [lia | done].
Qed.

Lemma get_loop_absent this σ key arr :
  (∀ e, e ∈ arr → strict_equal (key_of this σ e) key = false) →
  get_loop this σ key arr = VUndefined.
Proof.
  induction arr as [|y arr IH]; intros H; simpl; [done|].
  rewrite H; [|left]. apply IH. intros e He. apply H. by right.
Qed.

(** [get] returns the first element whose key is [===] to the argument,
    and [undefined] when there is none. *)
Lemma get_first this σ key :
  (∃ i ele,
      first_match (λ e, strict_equal (key_of this σ e) key)
        (elements this σ) i ele ∧
      get this σ key = VObject ele)
  ∨ ((∀ e, e ∈ elements this σ → strict_equal (key_of this σ e) key = false)
     ∧ get this σ key = VUndefined).
Proof.
  unfold get.
  destruct (Array.findIndex (λ e, strict_equal (key_of this σ e) key)
              (elements this σ)) as [i|] eqn:E.
  - left. apply findIndex_Some in E as (ele & H). exists i, ele.
    split; [done|]. by eapply get_loop_found.
  - right. apply findIndex_None in E.
    pose proof (proj1 (some_false _ _) E) as Hnone. split; [done|].
    by apply get_loop_absent.
Qed.

(** The scan stops at [r] when every element before it has another key. *)
Lemma get_loop_reaches this σ key arr r :
  r ∈ arr →
  strict_equal (key_of this σ r) key = true →
  (∀ o, o ∈ arr → o ≠ r → strict_equal (key_of this σ o) key = false) →
  get_loop this σ key arr = VObject r.
Proof.
  induction arr as [|y arr IH]; intros Hr Hk Hothers.
  - by apply elem_of_nil in Hr.
  - simpl. destruct (decide (y = r)) as [->|Hne].
    + by rewrite Hk.
    + rewrite Hothers; [|left|done].
      apply elem_of_cons in Hr as [->|Hr]; [done|].
      apply IH; [done..|]. intros o Ho. apply Hothers. by right.
Qed.
End Get.

(** C1 (as amended): for an instance and a stored object [r] whose unique
    property holds [oldValue], once code outside sets that property to
    [newValue], where [newValue] is not [NaN] and is not [===] to
    [oldValue], and no other stored object has a key [===] to [oldValue] or
    to [newValue], [get(newValue)] returns [r] and [get(oldValue)] returns
    [undefined], nothing having been called on the instance in between.  In
    every store [get(key)] returns the first element, in the order of the
    array, whose key is [===] to [key], and [undefined] when there is
    none. *)
Theorem get_live_key (this : t) (σ : store) (r : loc) (newValue : value) :
  let oldValue := key_of this σ r in
  let σ' := set_field σ r (uniqueProperty this) newValue in
  r ∈ elements this σ →
  (∀ o, o ∈ elements this σ → o ≠ r →
     strict_equal (key_of this σ o) oldValue = false ∧
     strict_equal (key_of this σ o) newValue = false) →
  newValue ≠ VNumber NaN →
  strict_equal oldValue newValue = false →
  get this σ' newValue = VObject r ∧
  get this σ' oldValue = VUndefined ∧
  ∀ τ key,
    (∃ i ele,
        first_match (λ e, strict_equal (key_of this τ e) key)
          (elements this τ) i ele ∧
        get this τ key = VObject ele)
    ∨ ((∀ e, e ∈ elements this τ → strict_equal (key_of this τ e) key = false)
       ∧ get this τ key = VUndefined).
Proof.
  intros oldValue σ' Hr Hothers HNaN Hdiff.
  assert (Hkey : key_of this σ' r = newValue) by apply get_field_set_field.
  assert (Hframe : ∀ o, o ≠ r → key_of this σ' o = key_of this σ o).
  { intros o Ho. by apply get_field_set_field_other. }
  split; [|split].
  - unfold get. apply get_loop_reaches.
    + done.
    + rewrite Hkey. by apply strict_equal_refl.
    + intros o Ho Hne. rewrite Hframe by done. by apply Hothers.
  - unfold get. apply get_loop_absent. intros e He.
    destruct (decide (e = r)) as [->|Hne].
    + rewrite Hkey. by rewrite strict_equal_sym.
    + rewrite Hframe by done. by apply Hothers.
  - intros τ key. apply get_first.
Qed.

Lemma get_live_key_witness :
  get Example.Users
    (set_field Example.heap Example.sara "id" (VNumber (Num 4)))
    (VNumber (Num 4)) = VObject Example.sara ∧
  get Example.Users
    (set_field Example.heap Example.sara "id" (VNumber (Num 4)))
    (VNumber (Num 2)) = VUndefined.
Proof.
  pose proof (get_live_key Example.Users Example.heap Example.sara
                (VNumber (Num 4))) as H.
  cbv zeta in H.
  destruct H as (H1 & H2 & _).
  - vm_compute. right. left.
  - intros o Ho Hne. vm_compute in Ho.
    each_element Ho ltac:(first [done | by vm_compute]).
  - discriminate.
  - reflexivity.
  - split; [exact H1 | exact H2].
Defined.

(** C1, as worded, fails for [NaN] and for a new value that is the old
    one: with [sara.id = NaN], [get(NaN)] is [undefined]; with [sara.id = 2]
    when it is 2 already, [get(2)] is [sara]. *)
Lemma live_key_counterexample :
  ¬ Stated.live_key Example.Users Example.heap Example.sara (VNumber NaN) ∧
  ¬ Stated.live_key Example.Users Example.heap Example.sara (VNumber (Num 2)).
Proof.
  assert (Hin : Example.sara ∈ elements Example.Users Example.heap).
  { vm_compute. right. left. }
  assert (Hothers : ∀ v, v = VNumber NaN ∨ v = VNumber (Num 2) →
            ∀ o, o ∈ elements Example.Users Example.heap → o ≠ Example.sara →
              strict_equal (key_of Example.Users Example.heap o)
                (key_of Example.Users Example.heap Example.sara) = false ∧
              strict_equal (key_of Example.Users Example.heap o) v = false).
  { intros v Hv o Ho Hne. vm_compute in Ho.
    each_element Ho ltac:(first [done | destruct Hv as [->| ->]; by vm_compute]). }
  split; intros H.
  - destruct (H Hin (Hothers _ (or_introl eq_refl))) as [H1 _].
    vm_compute in H1. discriminate.
  - destruct (H Hin (Hothers _ (or_intror eq_refl))) as [_ H2].
    vm_compute in H2. discriminate.
Qed.

(** ** [keys] and [entries] *)

Section OwnIterators.
Context {A : Type}.
Implicit Types (arr : list A) (it : OwnIterator A).

(** A loop over the iterator of an array that does not change yields the
    elements from the iterator's index on, and leaves it exhausted. *)
Lemma own_collect_drop arr i n :
  length arr - i < n →
  own_collect n (OwnIter (Some arr) i)
  = (drop i arr, OwnIter None (i `max` length arr)).
Proof.
  revert i. induction n as [|n IH]; intros i Hn; [lia|].
  simpl. unfold own_next. simpl.
  destruct (arr !! i) as [x|] eqn:E.
  - pose proof (lookup_lt_Some _ _ _ E) as Hlt.
    rewrite IH by lia.
    rewrite (drop_S _ _ _ E). do 2 f_equal. lia.
  - apply lookup_ge_None in E. rewrite drop_ge by done.
    do 2 f_equal. lia.
Qed.

Lemma own_collect_all arr n :
  length arr < n → fst (own_collect n (OwnIter (Some arr) 0)) = arr.
Proof. intros. rewrite own_collect_drop by lia. done. Qed.

Lemma own_collect_exhausts arr n :
  length arr < n → own_items (snd (own_collect n (OwnIter (Some arr) 0))) = None.
Proof. intros. rewrite own_collect_drop by lia. done. Qed.

Lemma own_next_done it it' n :
  own_next it = (None, it') → own_collect n it' = ([], it').
Proof.
  unfold own_next. intros H.
  assert (own_items it' = None) as Hdone.
  { destruct it as [[arr|] i]; simpl in H.
    - destruct (arr !! i); [done|]. by injection H as <-.
    - by injection H as <-. }
  destruct n as [|n]; [done|]. simpl. unfold own_next. by rewrite Hdone.
Qed.

(** A loop left after [k] steps and another loop on the same iterator
    yield together what one loop yields. *)
Lemma own_collect_resume it k n :
  fst (own_collect k it) ++ fst (own_collect n (snd (own_collect k it)))
  = fst (own_collect (k + n) it).
Proof.
  revert it. induction k as [|k IH]; intros it; [done|].
  simpl. destruct (own_next it) as [[x|] it'] eqn:E.
  - specialize (IH it').
    destruct (own_collect k it') as [xs it''].
    destruct (own_collect (k + n) it') as [zs it3]. simpl in *.
    by rewrite IH.
  - simpl. by rewrite (own_next_done _ _ _ E).
Qed.
End OwnIterators.

(** C2 (as amended): [keys()] and [entries()] give the values of the unique
    property in the order of the array as they are when [keys()] or
    [entries()] is called.  An iterator obtained before code outside sets
    the property of a stored object yields the keys of before, also for the
    objects it has not reached: its [next] does not read the store, so a
    loop left after [k] steps and resumed after the assignment yields the
    keys of before.  An iterator obtained after yields the new key.  Each call gives an iterator of its
    own, which starts at the first element and is exhausted by its loop. *)
Theorem keys_entries_computed_at_call
    (this : t) (σ : store) (r : loc) (v : value) (n : nat) :
  let σ' := set_field σ r (uniqueProperty this) v in
  length (elements this σ) < n →
  (fst (own_collect n (keys this σ)) = current_keys this σ ∧
   fst (own_collect n (entries this σ))
   = map (λ ele, (key_of this σ ele, ele)) (elements this σ) ∧
   ∀ k,
     fst (own_collect k (keys this σ))
       ++ fst (own_collect n (snd (own_collect k (keys this σ))))
     = current_keys this σ ∧
     fst (own_collect k (entries this σ))
       ++ fst (own_collect n (snd (own_collect k (entries this σ))))
     = map (λ ele, (key_of this σ ele, ele)) (elements this σ)) ∧
  (fst (own_collect n (keys this σ')) = current_keys this σ' ∧
   fst (own_collect n (entries this σ'))
   = map (λ ele, (key_of this σ' ele, ele)) (elements this σ') ∧
   key_of this σ' r = v) ∧
  (own_items (snd (own_collect n (keys this σ))) = None ∧
   own_items (snd (own_collect n (entries this σ))) = None ∧
   own_index (keys this σ) = 0 ∧ own_index (entries this σ) = 0).
Proof.
  intros σ' Hn.
  assert (Hn' : length (elements this σ') < n) by done.
  unfold keys, entries, current_keys.
  repeat split;
    try (apply own_collect_all; by rewrite length_map);
    try (apply own_collect_exhausts; by rewrite length_map);
    try (rewrite own_collect_resume; apply own_collect_all;
         rewrite length_map; lia).
  apply get_field_set_field.
Qed.

Lemma keys_entries_computed_at_call_witness :
  fst (own_collect 4 (keys Example.Users Example.heap))
  = [VNumber (Num 1); VNumber (Num 2); VNumber (Num 3)] ∧
  fst (own_collect 4
         (keys Example.Users
            (set_field Example.heap Example.sara "id" (VNumber (Num 4)))))
  = [VNumber (Num 1); VNumber (Num 4); VNumber (Num 3)].
Proof.
  pose proof (keys_entries_computed_at_call Example.Users Example.heap
                Example.sara (VNumber (Num 4)) 4) as H.
  cbv zeta in H.
  destruct H as ((H1 & _) & (H2 & _) & _).
  - vm_compute. lia.
  - split; [exact H1 | exact H2].
Defined.

(** C2, as worded, fails: the iterator of [Users.keys()] obtained before
    [sara.id = 4] yields 1, 2, 3, and the one of [Users.entries()] pairs
    [sara] with 2, while the key of [sara] is 4 when they reach it. *)
Lemma keys_at_iteration_counterexample :
  ¬ Stated.keys_at_iteration Example.Users Example.heap
      (set_field Example.heap Example.sara "id" (VNumber (Num 4))) ∧
  ¬ Stated.entries_at_iteration Example.Users Example.heap
      (set_field Example.heap Example.sara "id" (VNumber (Num 4))).
Proof.
  split; intros H; specialize (H 4 ltac:(vm_compute; lia));
    vm_compute in H; discriminate.
Qed.

(** ** [has] *)

Section Has.
Implicit Types (this : t) (σ : store) (x : value) (r : loc).

Lemma has_object this σ r : has this σ (VObject r) = true ↔ r ∈ elements this σ.
Proof.
  unfold has. rewrite isKey_object, some_true. split.
  - intros (e & He & Heq). apply strict_equal_object in Heq. by subst.
  - intros Hr. exists r. split; [done|]. by apply strict_equal_object.
Qed.

Lemma has_object_false this σ r :
  has this σ (VObject r) = false ↔ r ∉ elements this σ.
Proof.
  rewrite <- has_object. by destruct (has this σ (VObject r)).
Qed.

Lemma has_key this σ x :
  isKey x = true →
  has this σ x = true
  ↔ ∃ ele, ele ∈ elements this σ ∧ strict_equal (key_of this σ ele) x = true.
Proof. intros Hk. unfold has. rewrite Hk. apply some_true. Qed.

(** [has] reads the elements and their keys, and nothing else. *)
Lemma has_ext this σ τ x :
  elements this τ = elements this σ →
  (∀ l, key_of this τ l = key_of this σ l) →
  has this τ x = has this σ x.
Proof.
  intros He Hk. unfold has. rewrite He.
  destruct (isKey x); [|done].
  apply some_ext. intros l. by rewrite Hk.
Qed.
End Has.

(** ** [add] *)

Section Add.
Implicit Types (this : t) (σ : store) (r A B : loc).

Lemma add_returns_this this σ r : fst (add this σ r) = this.
Proof.
  unfold add. destruct (has this σ (VObject r)); simpl; [done|].
  by destruct (has this σ (key_of this σ r)).
Qed.

(** The three outcomes of [add]. *)
Lemma add_elements this σ r :
  elements this (snd (add this σ r)) =
    if has this σ (VObject r) then elements this σ
    else if has this σ (key_of this σ r) then
      Array.assign (elements this σ)
        (Array.findIndex
           (λ ele, strict_equal (key_of this σ ele) (key_of this σ r))
           (elements this σ)) r
    else elements this σ ++ [r].
Proof.
  unfold add. destruct (has this σ (VObject r)); simpl; [done|].
  destruct (has this σ (key_of this σ r)); simpl; by rewrite elements_write.
Qed.

Lemma add_stored this σ r : r ∈ elements this σ → add this σ r = (this, σ).
Proof. intros Hr%has_object. unfold add. by rewrite Hr. Qed.

Lemma add_idempotent this σ r :
  add (fst (add this σ r)) (snd (add this σ r)) r = add this σ r.
Proof.
  rewrite add_returns_this.
  destruct (has this (snd (add this σ r)) (VObject r)) eqn:Hafter.
  { unfold add at 1. rewrite Hafter. simpl.
    rewrite <- (add_returns_this this σ r) at 1. by destruct (add this σ r). }
  (* [r] is not an element afterwards: the assignment at index -1 *)
  apply has_object_false in Hafter. rewrite add_elements in Hafter.
  unfold add in *.
  destruct (has this σ (VObject r)) eqn:Hr; simpl in *.
  { by rewrite Hr. }
  destruct (has this σ (key_of this σ r)) eqn:Hk; simpl in *.
  - destruct (Array.findIndex _ (elements this σ)) as [i|] eqn:Ei;
      simpl in *.
    + destruct Hafter. apply list_elem_of_lookup. exists i.
      apply list_lookup_insert_eq. by eapply findIndex_lt.
    + pose (τ := write_array σ (hash_values this) (elements this σ)).
      assert (He : elements this τ = elements this σ) by apply elements_write.
      assert (Hkeys : ∀ l, key_of this τ l = key_of this σ l) by done.
      change (write_array σ (hash_values this) (elements this σ)) with τ.
      rewrite !(has_ext this σ τ) by done.
      rewrite Hr, Hkeys, Hk. simpl. rewrite He.
      rewrite (findIndex_ext _
                 (λ ele, strict_equal (key_of this σ ele) (key_of this σ r)))
        by (intros l; by rewrite Hkeys).
      rewrite Ei. simpl. unfold τ, write_array. simpl.
      by rewrite insert_insert_eq.
  - destruct Hafter. apply elem_of_app. right. left.
Qed.
End Add.

(** C3 (as amended): for an instance holding at position [i] an object [A]
    whose key is a string or a number [k] (so not [NaN]: the keys are
    compared with [===]), [i] being the first position whose key is [k],
    [add(B)] for an object [B] that has the key [k] and is not stored (so is
    not [A]) puts [B] at position [i] in the place of [A], leaves every
    other position and the size as they are, and returns the instance. *)
Theorem add_replaces_on_collision (this : t) (σ : store) (A B : loc) (i : nat) :
  isKey (key_of this σ B) = true →
  elements this σ !! i = Some A →
  strict_equal (key_of this σ A) (key_of this σ B) = true →
  (∀ j e, j < i → elements this σ !! j = Some e →
     strict_equal (key_of this σ e) (key_of this σ B) = false) →
  B ∉ elements this σ →
  fst (add this σ B) = this ∧
  elements this (snd (add this σ B)) = <[i := B]> (elements this σ) ∧
  elements this (snd (add this σ B)) !! i = Some B ∧
  size this (snd (add this σ B)) = size this σ.
Proof.
  intros HisKey HA Hcollide Hfirst HB.
  assert (Hi : Array.findIndex
                 (λ ele, strict_equal (key_of this σ ele) (key_of this σ B))
                 (elements this σ) = Some i).
  { apply findIndex_Some. by exists A. }
  assert (He : elements this (snd (add this σ B)) = <[i := B]> (elements this σ)).
  { rewrite add_elements.
    apply has_object_false in HB. rewrite HB.
    assert (has this σ (key_of this σ B) = true) as ->.
    { apply has_key; [done|]. exists A. split; [|done].
      apply list_elem_of_lookup. eauto. }
    by rewrite Hi. }
  split; [apply add_returns_this|]. split; [done|]. split.
  - rewrite He. apply list_lookup_insert_eq. by eapply lookup_lt_Some.
  - unfold size. by rewrite He, length_insert.
Qed.

Lemma add_replaces_on_collision_witness :
  elements Example.Users
    (snd (add Example.Users
            (set_field Example.heap Example.sara "id" (VNumber (Num 4)))
            Example.yousef))
  = [Example.ahmed; Example.yousef; Example.bob].
Proof.
  pose proof (add_replaces_on_collision Example.Users
                (set_field Example.heap Example.sara "id" (VNumber (Num 4)))
                Example.sara Example.yousef 1) as H.
  destruct H as (_ & H & _).
  - reflexivity.
  - reflexivity.
  - reflexivity.
  - intros [|[|j]] e Hj He; [|lia..].
    vm_compute in He. injection He as <-. reflexivity.
  - vm_compute. intros H. not_stored H.
  - exact H.
Defined.

(** C3, as worded, fails for a key that is neither a string nor a number:
    with [first_account] stored, [add(second_account)], whose [id] is the
    same [bigint], appends. *)
Lemma upsert_counterexample :
  ¬ Stated.upsert Example.Accounts Example.ledger
      Example.first_account Example.second_account 0 (VBigInt 10).
Proof.
  intros H. destruct H as (_ & _ & Hsize).
  - reflexivity.
  - reflexivity.
  - reflexivity.
  - intros j e Hj. lia.
  - vm_compute. intros H. not_stored H.
  - vm_compute in Hsize. discriminate.
Qed.

(** C4: when a stored object is the very object [r], [add(r)] leaves the
    store, and so the array (its elements, their order, the size), as it
    is; and [add(r)] after [add(r)] leaves the instance and the store as the
    first [add(r)] left them. *)
Theorem add_same_object_twice (this : t) (σ : store) (r : loc) :
  (r ∈ elements this σ → add this σ r = (this, σ)) ∧
  add (fst (add this σ r)) (snd (add this σ r)) r = add this σ r.
Proof. split; [apply add_stored | apply add_idempotent]. Qed.

Lemma add_same_object_twice_witness :
  add Example.Users Example.heap Example.sara = (Example.Users, Example.heap).
Proof.
  apply (proj1 (add_same_object_twice Example.Users Example.heap Example.sara)).
  vm_compute. right. left.
Defined.

(** An object that [add] has just taken, its key being a string or a
    number, is stored. *)
Lemma has_after_add (this : t) (σ : store) (r : loc) :
  isKey (key_of this σ r) = true →
  has this (snd (add this σ r)) (VObject r) = true.
Proof.
  intros HisKey. apply has_object. rewrite add_elements.
  destruct (has this σ (VObject r)) eqn:Hr; [by apply has_object|].
  destruct (has this σ (key_of this σ r)) eqn:Hk.
  - destruct (Array.findIndex _ (elements this σ)) as [i|] eqn:Ei; simpl.
    + apply list_elem_of_lookup. exists i.
      apply list_lookup_insert_eq. by eapply findIndex_lt.
    + apply findIndex_None in Ei. unfold has in Hk. rewrite HisKey in Hk.
      congruence.
  - apply elem_of_app. right. left.
Qed.

(** C5: [has(x)] for [x] a string or a number (what [#isKey] accepts) is
    true exactly when some stored object has a key [===] to [x]; [has(x)]
    for [x] an object is true exactly when some stored object is that very
    object.  So [has(r)] is true for a stored object [r], also when another
    stored object has the same key, and [has] of the key of [r], a string or
    a number, is true exactly when some stored object has that key now. *)
Theorem has_two_shapes (this : t) (σ : store) :
  (∀ x, isKey x = true ↔ typeof x = "string" ∨ typeof x = "number") ∧
  (∀ x, isKey x = true →
     has this σ x = true
     ↔ ∃ ele, ele ∈ elements this σ ∧ strict_equal (key_of this σ ele) x = true) ∧
  (∀ r, has this σ (VObject r) = true ↔ r ∈ elements this σ) ∧
  (∀ r r', r ∈ elements this σ → r' ∈ elements this σ → r' ≠ r →
     key_of this σ r' = key_of this σ r → has this σ (VObject r) = true) ∧
  (∀ r, isKey (key_of this σ r) = true →
     has this σ (key_of this σ r) = true
     ↔ ∃ ele, ele ∈ elements this σ ∧
         strict_equal (key_of this σ ele) (key_of this σ r) = true).
Proof.
  split; [apply isKey_typeof|]. split; [apply has_key|].
  split; [apply has_object|]. split.
  - intros r r' Hr _ _ _. by apply has_object.
  - intros r. apply has_key.
Qed.

Lemma has_two_shapes_witness :
  has Example.Users Example.heap (VNumber (Num 2)) = true ∧
  has Example.Users Example.heap (VObject Example.sara) = true ∧
  has Example.Users Example.heap (VObject Example.yousef) = false.
Proof.
  destruct (has_two_shapes Example.Users Example.heap) as (_ & Hkey & Hobj & _).
  split; [|split].
  - apply Hkey; [reflexivity|]. exists Example.sara. split; [|reflexivity].
    vm_compute. right. left.
  - apply Hobj. vm_compute. right. left.
  - destruct (has Example.Users Example.heap (VObject Example.yousef)) eqn:E;
      [|reflexivity].
    apply Hobj in E. vm_compute in E. not_stored E.
Defined.

(** ** [delete] *)

Section Delete.
Implicit Types (this : t) (σ : store) (x : value) (r : loc).

Lemma delete_found this σ x i ele :
  first_match (delete_test this σ x) (elements this σ) i ele →
  delete this σ x
  = (if isKey x then VObject ele else key_of this σ ele,
     write_array σ (hash_values this) (base.delete i (elements this σ))).
Proof.
  intros Hfirst.
  assert (Hi : Array.findIndex (delete_test this σ x) (elements this σ) = Some i).
  { apply findIndex_Some. eauto. }
  destruct Hfirst as (Hele & _ & _).
  unfold delete, delete_test in *. destruct (isKey x); rewrite Hi;
    rewrite (splice_one _ _ _ Hele); done.
Qed.

Lemma delete_absent this σ x :
  (∀ e, e ∈ elements this σ → delete_test this σ x e = false) →
  delete this σ x = (VUndefined, σ).
Proof.
  intros Hnone%some_false%findIndex_None.
  unfold delete, delete_test in *. destruct (isKey x); by rewrite Hnone.
Qed.

(** [delete] removes one element at most. *)
Lemma delete_elements this σ x :
  elements this (snd (delete this σ x)) = elements this σ
  ∨ ∃ i, i < length (elements this σ) ∧
      elements this (snd (delete this σ x)) = base.delete i (elements this σ).
Proof.
  destruct (Array.findIndex (delete_test this σ x) (elements this σ))
    as [i|] eqn:E.
  - right. exists i. split; [by eapply findIndex_lt|].
    apply findIndex_Some in E as (ele & H).
    rewrite (delete_found _ _ _ _ _ H). simpl. apply elements_write.
  - left. rewrite delete_absent; [done|].
    by apply some_false, findIndex_None.
Qed.
End Delete.

(** C6: [delete] with a string or a number removes the first element whose
    key is [===] to it and returns that element; [delete] with an object
    removes the first element that is that very object and returns the key
    it has.  Either way the array afterwards is the array before without
    that one position, the others in their order, and the objects are
    untouched; when nothing matches, [delete] returns [undefined] and leaves
    the store as it is. *)
Theorem delete_two_shapes (this : t) (σ : store) :
  (∀ x i ele,
     isKey x = true →
     first_match (λ e, strict_equal (key_of this σ e) x) (elements this σ) i ele →
     fst (delete this σ x) = VObject ele ∧
     elements this (snd (delete this σ x))
     = take i (elements this σ) ++ drop (S i) (elements this σ) ∧
     S (size this (snd (delete this σ x))) = size this σ ∧
     objects (snd (delete this σ x)) = objects σ) ∧
  (∀ x,
     isKey x = true →
     (∀ e, e ∈ elements this σ → strict_equal (key_of this σ e) x = false) →
     delete this σ x = (VUndefined, σ)) ∧
  (∀ r i,
     elements this σ !! i = Some r →
     (∀ j, j < i → elements this σ !! j ≠ Some r) →
     fst (delete this σ (VObject r)) = key_of this σ r ∧
     elements this (snd (delete this σ (VObject r)))
     = take i (elements this σ) ++ drop (S i) (elements this σ) ∧
     S (size this (snd (delete this σ (VObject r)))) = size this σ ∧
     objects (snd (delete this σ (VObject r))) = objects σ) ∧
  (∀ r, r ∉ elements this σ → delete this σ (VObject r) = (VUndefined, σ)).
Proof.
  assert (Hremoved : ∀ x i ele,
            first_match (delete_test this σ x) (elements this σ) i ele →
            elements this (snd (delete this σ x))
            = take i (elements this σ) ++ drop (S i) (elements this σ) ∧
            S (size this (snd (delete this σ x))) = size this σ ∧
            objects (snd (delete this σ x)) = objects σ).
  { intros x i ele H. rewrite (delete_found _ _ _ _ _ H). simpl.
    rewrite elements_write. split; [apply delete_take_drop|]. split; [|done].
    unfold size. rewrite elements_write.
    destruct H as (H & _). pose proof (lookup_lt_Some _ _ _ H).
    rewrite length_delete by eauto. lia. }
  split; [|split; [|split]].
  - intros x i ele Hk Hfirst.
    assert (H : first_match (delete_test this σ x) (elements this σ) i ele).
    { unfold delete_test. by rewrite Hk. }
    split; [|by eapply Hremoved].
    rewrite (delete_found _ _ _ _ _ H). simpl. by rewrite Hk.
  - intros x Hk Hnone. apply delete_absent. unfold delete_test. by rewrite Hk.
  - intros r i Hi Hbefore.
    assert (H : first_match (delete_test this σ (VObject r)) (elements this σ) i r).
    { unfold delete_test. simpl. repeat split; [done|by apply Pos.eqb_eq|].
      intros j y Hj Hy. apply Pos.eqb_neq. intros ->. by apply (Hbefore j). }
    split; [|by eapply Hremoved].
    by rewrite (delete_found _ _ _ _ _ H).
  - intros r Hr. apply delete_absent. intros e He. unfold delete_test. simpl.
    apply Pos.eqb_neq. by intros ->.
Qed.

Lemma delete_two_shapes_witness :
  fst (delete Example.Users Example.heap (VNumber (Num 1))) = VObject Example.ahmed ∧
  fst (delete Example.Users Example.heap (VObject Example.bob)) = VNumber (Num 3) ∧
  delete Example.Users Example.heap (VNumber (Num 7))
  = (VUndefined, Example.heap) ∧
  delete Example.Users Example.heap (VObject Example.yousef)
  = (VUndefined, Example.heap).
Proof.
  destruct (delete_two_shapes Example.Users Example.heap)
    as (Hkey & Hnokey & Hobj & Hnoobj).
  split; [|split; [|split]].
  - apply (Hkey (VNumber (Num 1)) 0 Example.ahmed); [reflexivity|].
    split; [reflexivity|]. split; [reflexivity|]. intros j y Hj. lia.
  - apply (Hobj Example.bob 2); [reflexivity|].
    intros [|[|j]] Hj; [done|done|lia].
  - apply Hnokey; [reflexivity|]. intros e He. vm_compute in He.
    each_element He ltac:(reflexivity).
  - apply Hnoobj. vm_compute. intros H. not_stored H.
Defined.

(** ** Uniqueness of the keys *)

Section PairwiseDistinct.
Implicit Types (ks : list value) (k a b : value).

Lemma pairwise_distinct_lookup ks :
  pairwise_distinct ks = true ↔
  ∀ i j a b, i < j → ks !! i = Some a → ks !! j = Some b →
             strict_equal a b = false.
Proof.
  induction ks as [|k ks IH]; simpl.
  - split; [|done]. intros _ i j a b _ H. done.
  - rewrite andb_true_iff, negb_true_iff, IH, some_false. split.
    + intros [Hk Hks] [|i] [|j] a b Hij Ha Hb; simpl in *; try lia.
      * injection Ha as <-. apply Hk. apply list_elem_of_lookup. eauto.
      * apply (Hks i j); [lia | done..].
    + intros H. split.
      * intros b [j Hj]%list_elem_of_lookup.
        apply (H 0 (S j)); [lia | done..].
      * intros i j a b Hij Ha Hb. apply (H (S i) (S j)); [lia | done..].
Qed.

Lemma pairwise_distinct_delete ks i :
  pairwise_distinct ks = true → pairwise_distinct (base.delete i ks) = true.
Proof.
  revert i. induction ks as [|k ks IH]; intros [|i]; simpl; try done.
  - by intros [_ H]%andb_true_iff.
  - rewrite !andb_true_iff, !negb_true_iff. intros [Hk Hks].
    split; [by apply some_delete | by apply IH].
Qed.

Lemma pairwise_distinct_snoc ks k :
  pairwise_distinct ks = true →
  (∀ a, a ∈ ks → strict_equal a k = false) →
  pairwise_distinct (ks ++ [k]) = true.
Proof.
  induction ks as [|a ks IH]; simpl; [done|].
  rewrite !andb_true_iff, !negb_true_iff. intros [Ha Hks] Hk. split.
  - rewrite some_app, Ha. simpl. rewrite Hk; [done | left].
  - apply IH; [done|]. intros b Hb. apply Hk. by right.
Qed.
End PairwiseDistinct.

Section UniqueKeys.
Implicit Types (this : t) (σ : store) (r : loc).

(** [unique_keys] read on positions: two positions hold keys that are not
    [===]. *)
Lemma unique_keys_positions this σ :
  unique_keys this σ ↔
  ∀ i j a b, i ≠ j →
    elements this σ !! i = Some a → elements this σ !! j = Some b →
    strict_equal (key_of this σ a) (key_of this σ b) = false.
Proof.
  unfold unique_keys, current_keys. rewrite pairwise_distinct_lookup. split.
  - intros H i j a b Hij Ha Hb.
    destruct (decide (i < j)).
    + apply (H i j); [done | by rewrite list_lookup_fmap, ?Ha, ?Hb..].
    + rewrite strict_equal_sym.
      apply (H j i); [lia | by rewrite list_lookup_fmap, ?Ha, ?Hb..].
  - intros H i j ka kb Hij Ha Hb. rewrite list_lookup_fmap in Ha, Hb.
    destruct (elements this σ !! i) as [a|] eqn:Ea; [|done].
    destruct (elements this σ !! j) as [b|] eqn:Eb; [|done].
    simpl in *. injection Ha as <-. injection Hb as <-.
    apply (H i j); [lia | done..].
Qed.

Lemma add_objects this σ r : objects (snd (add this σ r)) = objects σ.
Proof.
  unfold add. destruct (has this σ (VObject r)); simpl; [done|].
  by destruct (has this σ (key_of this σ r)).
Qed.

Lemma delete_objects this σ x : objects (snd (delete this σ x)) = objects σ.
Proof.
  unfold delete.
  destruct (if isKey x then _ else _) as [i|]; [|done].
  destruct (Array.splice (elements this σ) i 1) as [removed rest].
  destruct (removed !! 0); [|done]. by destruct (isKey x).
Qed.

Lemma key_of_objects this σ τ r :
  objects τ = objects σ → key_of this τ r = key_of this σ r.
Proof.
  intros H. unfold key_of, get_field, read_object. by rewrite H.
Qed.

Lemma add_keeps_unique_keys this σ r :
  isKey (key_of this σ r) = true →
  unique_keys this σ → unique_keys this (snd (add this σ r)).
Proof.
  intros HisKey Hunique. unfold unique_keys, current_keys in *.
  rewrite (map_ext _ (key_of this σ))
    by (intros l; apply key_of_objects, add_objects).
  rewrite add_elements.
  destruct (has this σ (VObject r)); [done|].
  destruct (has this σ (key_of this σ r)) eqn:Hk.
  - destruct (Array.findIndex _ (elements this σ)) as [i|] eqn:Ei;
      simpl; [|done].
    apply findIndex_Some in Ei as (A & HA & Hcollide & _).
    apply strict_equal_eq in Hcollide.
    rewrite list_fmap_insert, list_insert_id; [done|].
    by rewrite list_lookup_fmap, HA, <- Hcollide.
  - rewrite map_app. simpl. apply pairwise_distinct_snoc; [done|].
    intros a (l & -> & Hl)%list_elem_of_fmap.
    unfold has in Hk. rewrite HisKey in Hk.
    by apply (proj1 (some_false _ _) Hk).
Qed.

Lemma delete_keeps_unique_keys this σ x :
  unique_keys this σ → unique_keys this (snd (delete this σ x)).
Proof.
  intros Hunique. unfold unique_keys, current_keys in *.
  rewrite (map_ext _ (key_of this σ))
    by (intros l; apply key_of_objects, delete_objects).
  destruct (delete_elements this σ x) as [-> | (i & _ & ->)]; [done|].
  change (map (key_of this σ) (base.delete i (elements this σ)))
    with (key_of this σ <$> base.delete i (elements this σ)).
  rewrite list_fmap_delete. by apply pairwise_distinct_delete.
Qed.

Lemma clear_elements this σ :
  elements (fst (clear this σ)) (snd (clear this σ)) = [].
Proof. unfold clear. simpl. apply read_write_array. Qed.

Lemma clear_keeps_unique_keys this σ :
  unique_keys (fst (clear this σ)) (snd (clear this σ)).
Proof. unfold unique_keys, current_keys. by rewrite clear_elements. Qed.
End UniqueKeys.

(** C7 (as amended): in an instance whose stored objects have keys that
    differ from one another (no two positions hold keys that are [===]),
    after one [add] of an object whose key is a string or a number, one
    [delete] or one [clear], with no assignment from outside, the stored
    objects still have keys that differ from one another; [add] replaces
    on a collision of keys and appends otherwise. *)
Theorem api_keeps_unique_keys (this : t) (σ : store) :
  unique_keys this σ →
  (∀ value, isKey (key_of this σ value) = true →
     unique_keys (fst (add this σ value)) (snd (add this σ value))) ∧
  (∀ keyOrValue, unique_keys this (snd (delete this σ keyOrValue))) ∧
  unique_keys (fst (clear this σ)) (snd (clear this σ)).
Proof.
  intros Hunique. split; [|split].
  - intros value Hk. rewrite add_returns_this. by apply add_keeps_unique_keys.
  - intros x. by apply delete_keeps_unique_keys.
  - apply clear_keeps_unique_keys.
Qed.

Lemma api_keeps_unique_keys_witness :
  unique_keys Example.Users (snd (add Example.Users Example.heap Example.yousef)) ∧
  unique_keys Example.Users
    (snd (delete Example.Users Example.heap (VNumber (Num 2)))).
Proof.
  destruct (api_keeps_unique_keys Example.Users Example.heap) as (Hadd & Hdel & _).
  - reflexivity.
  - split.
    + apply (Hadd Example.yousef). reflexivity.
    + apply Hdel.
Defined.

(** C7, as worded, fails for [add] of an object whose key is neither a
    string nor a number: with [first_account] stored, [add(second_account)]
    leaves two stored objects with the same [bigint] as [id]. *)
Lemma unique_keys_counterexample :
  ¬ Stated.add_of_any_object_keeps_keys_unique Example.Accounts Example.ledger
      Example.second_account.
Proof.
  intros H. specialize (H eq_refl). vm_compute in H. discriminate.
Qed.

(** ** [clear] and the unique property *)

Section Lifetime.
Implicit Types (this : t) (σ : store) (o : operation).

Lemma step_uniqueProperty this σ o :
  uniqueProperty (fst (step (this, σ) o)) = uniqueProperty this.
Proof.
  destruct o; simpl; try done.
  unfold uniqueProperty. by rewrite add_returns_this.
Qed.

Lemma run_uniqueProperty ops this σ :
  uniqueProperty (fst (run ops (this, σ))) = uniqueProperty this.
Proof.
  revert this σ. induction ops as [|o ops IH]; intros this σ; [done|].
  change (run (o :: ops) (this, σ)) with (run ops (step (this, σ) o)).
  rewrite <- (step_uniqueProperty this σ o).
  destruct (step (this, σ) o) as [this' σ']. apply IH.
Qed.
End Lifetime.

(** C9: [clear()] leaves an instance of size 0, where [get] of any key is
    [undefined]; and [uniqueProperty] is, after any sequence of [get],
    [has], [add], [delete], [clear], iterations, renderings and assignments
    from outside, the name given to the constructor: each operation leaves
    it as it was. *)
Theorem clear_empties_and_uniqueProperty_stays (this : t) (σ : store) :
  (size (fst (clear this σ)) (snd (clear this σ)) = 0 ∧
   (∀ key, get (fst (clear this σ)) (snd (clear this σ)) key = VUndefined) ∧
   uniqueProperty (fst (clear this σ)) = uniqueProperty this) ∧
  (∀ o, uniqueProperty (fst (step (this, σ) o)) = uniqueProperty this) ∧
  (∀ ops objects property τ,
     uniqueProperty (fst (run ops (constructor objects property, τ))) = property).
Proof.
  split; [|split].
  - unfold size, get. rewrite clear_elements. done.
  - apply step_uniqueProperty.
  - intros ops objects property τ. apply run_uniqueProperty.
Qed.

(** ** [values] *)

Section ArrayIterators.
Implicit Types (σ : store) (a : aloc) (it : ArrayIterator).

(** In a store that does not change, a loop yields the elements from the
    iterator's index on and leaves the iterator exhausted. *)
Lemma collect_drop σ a i n :
  length (read_array σ a) - i < n →
  collect n σ (ArrayIter (Some a) i)
  = (drop i (read_array σ a), ArrayIter None (i `max` length (read_array σ a))).
Proof.
  revert i. induction n as [|n IH]; intros i Hn; [lia|].
  simpl. unfold next. simpl.
  destruct (read_array σ a !! i) as [x|] eqn:E.
  - pose proof (lookup_lt_Some _ _ _ E) as Hlt.
    rewrite IH by lia.
    rewrite (drop_S _ _ _ E). do 2 f_equal. lia.
  - apply lookup_ge_None in E. rewrite drop_ge by done.
    do 2 f_equal. lia.
Qed.

(** [i] steps, none of which reports the end, leave the iterator at
    index [i], on the same array. *)
Lemma collect_advance σ a i k :
  (i + k ≤ length (read_array σ a))%nat →
  collect i σ (ArrayIter (Some a) k)
  = (take i (drop k (read_array σ a)), ArrayIter (Some a) (i + k)).
Proof.
  revert k. induction i as [|i IH]; intros k Hi; [done|].
  simpl. unfold next. simpl.
  destruct (read_array σ a !! k) as [x|] eqn:E.
  - rewrite IH by lia. rewrite (drop_S _ _ _ E). simpl.
    do 2 f_equal. lia.
  - apply lookup_ge_None in E. lia.
Qed.

Lemma values_advance this σ i :
  (i ≤ size this σ)%nat →
  snd (collect i σ (values this σ)) = ArrayIter (Some (hash_values this)) i.
Proof.
  intros Hi. unfold values. rewrite collect_advance by (unfold size, elements in Hi; lia).
  simpl. f_equal. lia.
Qed.

Lemma clear_keeps_old_array this σ :
  is_Some (arrays σ !! hash_values this) →
  read_array (snd (clear this σ)) (hash_values this) = elements this σ.
Proof.
  intros Hsome. unfold clear. simpl. apply read_write_array_ne.
  intros Heq. apply (is_fresh (dom (arrays σ))). rewrite Heq.
  by apply elem_of_dom.
Qed.

Lemma elem_of_delete_position {A} (l : list A) p x :
  x ∈ base.delete p l → ∃ q, q ≠ p ∧ l !! q = Some x.
Proof.
  intros [j Hj]%list_elem_of_lookup.
  destruct (decide (j < p)).
  - exists j. split; [lia|]. by rewrite list_lookup_delete_lt in Hj.
  - exists (S j). split; [lia|]. by rewrite list_lookup_delete_ge in Hj by lia.
Qed.
End ArrayIterators.

(** C10: the iterator of [values()] reads the array of the instance at each
    step.  With [values()] called and [i] elements taken, none of the steps
    having reported the end: an object that [add] then appends is yielded
    after the remaining elements; an element that [delete] then removes
    from a position the iterator has not reached is not yielded from that
    position (and not at all when it is stored only there), the others
    are; and after [clear()], which gives the instance a new, empty array,
    the iterator still yields the remaining elements of the old array,
    while a new iterator yields nothing. *)
Theorem values_reads_the_live_array (this : t) (σ : store) (i n : nat) :
  let it := snd (collect i σ (values this σ)) in
  (i ≤ size this σ)%nat →
  size this σ + 1 < n →
  (∀ value,
     has this σ (VObject value) = false →
     has this σ (key_of this σ value) = false →
     fst (collect n (snd (add this σ value)) it)
     = drop i (elements this σ) ++ [value]) ∧
  (∀ keyOrValue p ele,
     first_match (delete_test this σ keyOrValue) (elements this σ) p ele →
     (i ≤ p)%nat →
     fst (collect n (snd (delete this σ keyOrValue)) it)
     = drop i (take p (elements this σ) ++ drop (S p) (elements this σ)) ∧
     ((∀ q, q ≠ p → elements this σ !! q ≠ Some ele) →
      ele ∉ fst (collect n (snd (delete this σ keyOrValue)) it))) ∧
  (is_Some (arrays σ !! hash_values this) →
   fst (collect n (snd (clear this σ)) it) = drop i (elements this σ) ∧
   elements (fst (clear this σ)) (snd (clear this σ)) = [] ∧
   fst (collect n (snd (clear this σ))
          (values (fst (clear this σ)) (snd (clear this σ)))) = []).
Proof.
  intros it Hi Hn. unfold it. rewrite values_advance by done. clear it.
  unfold size in *. split; [|split].
  - intros value Hvalue Hkey.
    assert (He : read_array (snd (add this σ value)) (hash_values this)
                 = elements this σ ++ [value]).
    { change (read_array ?s (hash_values this)) with (elements this s).
      by rewrite add_elements, Hvalue, Hkey. }
    rewrite collect_drop; rewrite He; [|rewrite length_app; simpl; lia].
    simpl. by rewrite drop_app_le.
  - intros x p ele Hfirst Hp.
    assert (He : read_array (snd (delete this σ x)) (hash_values this)
                 = base.delete p (elements this σ)).
    { rewrite (delete_found _ _ _ _ _ Hfirst). simpl. apply read_write_array. }
    destruct Hfirst as (Hele & _).
    pose proof (lookup_lt_Some _ _ _ Hele) as Hlt.
    rewrite collect_drop; rewrite He;
      [|rewrite length_delete by eauto; lia].
    simpl. split; [by rewrite delete_take_drop|].
    intros Honly Hin. apply subseteq_drop in Hin.
    apply elem_of_delete_position in Hin as (q & Hq & Hin).
    by apply (Honly q).
  - intros Hsome.
    pose proof (clear_keeps_old_array this σ Hsome) as He.
    split; [|split].
    + rewrite collect_drop; rewrite He; [done | lia].
    + apply clear_elements.
    + unfold values. rewrite collect_drop.
      * change (read_array ?s (hash_values (fst (clear this σ))))
          with (elements (fst (clear this σ)) s).
        by rewrite clear_elements.
      * change (read_array ?s (hash_values (fst (clear this σ))))
          with (elements (fst (clear this σ)) s).
        rewrite clear_elements. simpl. lia.
Qed.

Lemma values_reads_the_live_array_witness :
  fst (collect 5 (snd (add Example.Users Example.heap Example.yousef))
         (snd (collect 1 Example.heap (values Example.Users Example.heap))))
  = [Example.sara; Example.bob; Example.yousef] ∧
  fst (collect 5 (snd (delete Example.Users Example.heap (VObject Example.bob)))
         (snd (collect 1 Example.heap (values Example.Users Example.heap))))
  = [Example.sara] ∧
  fst (collect 5 (snd (clear Example.Users Example.heap))
         (snd (collect 1 Example.heap (values Example.Users Example.heap))))
  = [Example.sara; Example.bob].
Proof.
  pose proof (values_reads_the_live_array Example.Users Example.heap 1 5) as H.
  cbv zeta in H.
  destruct H as (Hadd & Hdelete & Hclear).
  - vm_compute. lia.
  - vm_compute. lia.
  - split; [|split].
    + apply (Hadd Example.yousef); reflexivity.
    + apply (Hdelete (VObject Example.bob) 2 Example.bob).
      * split; [reflexivity|]. split; [reflexivity|].
        intros [|[|j]] y Hj Hy; [| |lia]; vm_compute in Hy;
          injection Hy as <-; reflexivity.
      * lia.
    + apply Hclear. by eexists.
Defined.

(** ** [print] and [toString] *)

Section Rendering.
Implicit Types (this : t) (σ : store).

(** On an empty instance [print] logs the one line that [toString]
    returns. *)
Lemma print_toString_empty this σ :
  elements this σ = [] →
  toString this σ = "SelfMap(0) {}" ∧
  print this σ = [[VString (toString this σ)]] ∧
  Console.output σ (print this σ) = ["SelfMap(0) {}"].
Proof.
  intros He. unfold toString, print, header, size. rewrite He. done.
Qed.

(** On any other, [print] logs the header, one call for each element
    with the key and the element themselves as arguments, and the closing
    brace. *)
Lemma print_calls this σ :
  elements this σ ≠ [] →
  print this σ
  = [VString (header this σ)]
    :: map (λ ele, [VString " "; key_of this σ ele; VString "=>"; VObject ele])
         (elements this σ)
    ++ [[VString "}"]].
Proof.
  intros He. unfold print. by destruct (elements this σ).
Qed.

(** What [toString] writes for an element does not depend on the
    properties of the element other than its key. *)
Lemma toString_element_text (l : loc) : ToString (VObject l) = "[object Object]".
Proof. done. Qed.
End Rendering.

(** C8 (the code differs): on [Users] of the README, [print] writes the
    header, one line for each object with its key, [=>] and the properties
    of the object, and the closing brace, as the README shows; [toString]
    returns the same header and closing brace, with the same keys, but
    [[object Object]] where [print] shows the object.  The lines of the two
    are not the same. *)
Theorem print_and_toString_differ :
  Console.output Example.heap (print Example.Users Example.heap)
  = ["SelfMap(3) {";
     "  1 => { id: 1, name: 'Ahmed', age: 18 }";
     "  2 => { id: 2, name: 'Sara', age: 20 }";
     "  3 => { id: 3, name: 'Bob', age: 25 }";
     "}"] ∧
  Console.lines (toString Example.Users Example.heap)
  = ["SelfMap(3) {";
     "  1 => [object Object]";
     "  2 => [object Object]";
     "  3 => [object Object]";
     "}"] ∧
  ¬ Stated.same_lines Example.Users Example.heap.
Proof.
  split; [by vm_compute|]. split; [by vm_compute|].
  unfold Stated.same_lines. vm_compute. discriminate.
Qed.

(** * Further properties of the class *)

(** ** Lookups after [add] and [delete] *)

Section Lookups.
Implicit Types (this : t) (σ τ : store) (x key : value) (r : loc).

Lemma get_loop_ext this σ τ key arr :
  (∀ l, key_of this τ l = key_of this σ l) →
  get_loop this τ key arr = get_loop this σ key arr.
Proof.
  intros Hk. induction arr as [|y arr IH]; simpl; [done|]. by rewrite Hk, IH.
Qed.

Lemma key_of_add this σ r l :
  key_of this (snd (add this σ r)) l = key_of this σ l.
Proof. apply key_of_objects, add_objects. Qed.

Lemma key_of_delete this σ x l :
  key_of this (snd (delete this σ x)) l = key_of this σ l.
Proof. apply key_of_objects, delete_objects. Qed.

Lemma write_write_array σ (a : aloc) (arr1 arr2 : list loc) :
  write_array (write_array σ a arr1) a arr2 = write_array σ a arr2.
Proof. unfold write_array. simpl. by rewrite insert_insert_eq. Qed.

(** With keys that differ from one another, the scan for the key of a
    stored object stops at that object. *)
Lemma get_loop_unique this σ r :
  unique_keys this σ →
  r ∈ elements this σ →
  key_of this σ r ≠ VNumber NaN →
  get_loop this σ (key_of this σ r) (elements this σ) = VObject r.
Proof.
  intros Hunique Hr HNaN. apply get_loop_reaches; [done|by apply strict_equal_refl|].
  intros o Ho Hne.
  apply list_elem_of_lookup in Ho as [i Hi]. apply list_elem_of_lookup in Hr as [j Hj].
  apply (proj1 (unique_keys_positions this σ) Hunique i j); [|done..].
  intros ->. congruence.
Qed.
End Lookups.

(** X1: for a string or a number [x], [has(x)] is true exactly when
    [get(x)] returns an element, and that element is stored and has a key
    [===] to [x]. *)
Theorem has_agrees_with_get (this : t) (σ : store) (x : value) :
  isKey x = true →
  (has this σ x = true ↔ get this σ x ≠ VUndefined) ∧
  (has this σ x = true →
   ∃ ele, get this σ x = VObject ele ∧ ele ∈ elements this σ ∧
          strict_equal (key_of this σ ele) x = true).
Proof.
  intros Hk.
  destruct (get_first this σ x) as [(i & ele & (Hi & Hp & _) & Hget) | [Hnone Hget]].
  - assert (Hin : ele ∈ elements this σ) by (apply list_elem_of_lookup; eauto).
    assert (Hhas : has this σ x = true) by (apply has_key; eauto).
    split; [|by eauto]. split; [by rewrite Hget | done].
  - assert (Hhas : has this σ x = false).
    { unfold has. rewrite Hk. by apply some_false. }
    rewrite Hhas, Hget. split; [|done]. split; done.
Qed.

Lemma has_agrees_with_get_witness :
  get Example.Users Example.heap (VNumber (Num 3)) ≠ VUndefined.
Proof.
  apply (has_agrees_with_get Example.Users Example.heap (VNumber (Num 3)));
    reflexivity.
Defined.

(** X2: after [add(r)] of an object whose key [k] is a string or a number
    other than [NaN], in an instance where [r] was not stored or where the
    keys differ from one another, [has(r)] and [has(k)] are true and
    [get(k)] returns [r]. *)
Theorem add_then_lookup (this : t) (σ : store) (r : loc) :
  isKey (key_of this σ r) = true →
  key_of this σ r ≠ VNumber NaN →
  r ∉ elements this σ ∨ unique_keys this σ →
  has this (snd (add this σ r)) (VObject r) = true ∧
  has this (snd (add this σ r)) (key_of this σ r) = true ∧
  get this (snd (add this σ r)) (key_of this σ r) = VObject r.
Proof.
  intros HisKey HNaN Hcase.
  assert (Hstored : has this (snd (add this σ r)) (VObject r) = true)
    by by apply has_after_add.
  assert (Hrefl : strict_equal (key_of this σ r) (key_of this σ r) = true)
    by by apply strict_equal_refl.
  split; [done|]. split.
  { apply has_key; [done|]. exists r. split; [by apply has_object|].
    by rewrite key_of_add. }
  unfold get. rewrite (get_loop_ext this σ) by apply key_of_add.
  rewrite add_elements.
  destruct (has this σ (VObject r)) eqn:Hr.
  - apply has_object in Hr. destruct Hcase as [Hnot|Hunique]; [done|].
    by apply get_loop_unique.
  - destruct (has this σ (key_of this σ r)) eqn:Hk.
    + destruct (Array.findIndex _ (elements this σ)) as [i|] eqn:Ei.
      * apply findIndex_Some in Ei as (A & HA & _ & Hfirst). simpl.
        apply (get_loop_found _ _ _ _ i). split; [|split; [done|]].
        -- apply list_lookup_insert_eq. by eapply lookup_lt_Some.
        -- intros j y Hj Hy. rewrite list_lookup_insert_ne in Hy by lia.
           by apply (Hfirst j).
      * apply findIndex_None in Ei. unfold has in Hk. rewrite HisKey in Hk.
        congruence.
    + unfold has in Hk. rewrite HisKey in Hk.
      pose proof (proj1 (some_false _ _) Hk) as Hnone.
      apply get_loop_reaches; [apply elem_of_app; right; left | done |].
      intros o Ho Hne. apply elem_of_app in Ho as [Ho|Ho]; [by apply Hnone|].
      apply list_elem_of_singleton in Ho. done.
Qed.

Lemma add_then_lookup_witness :
  get Example.Users (snd (add Example.Users Example.heap Example.yousef))
    (VNumber (Num 4)) = VObject Example.yousef.
Proof.
  apply (add_then_lookup Example.Users Example.heap Example.yousef).
  - reflexivity.
  - discriminate.
  - left. vm_compute. intros H. not_stored H.
Defined.

(** X3: in an instance whose keys differ from one another, after
    [delete(x)] with a string or a number [x], [has(x)] is false and
    [get(x)] is [undefined]; in an instance that holds no object twice,
    after [delete(r)] with an object [r], [has(r)] is false. *)
Theorem delete_then_lookup (this : t) (σ : store) :
  (∀ x, isKey x = true → unique_keys this σ →
     has this (snd (delete this σ x)) x = false ∧
     get this (snd (delete this σ x)) x = VUndefined) ∧
  (∀ r, NoDup (elements this σ) →
     has this (snd (delete this σ (VObject r))) (VObject r) = false).
Proof.
  split.
  - intros x Hk Hunique.
    assert (Hnone : ∀ e, e ∈ elements this (snd (delete this σ x)) →
              strict_equal (key_of this σ e) x = false).
    { destruct (Array.findIndex (delete_test this σ x) (elements this σ))
        as [i|] eqn:E.
      - apply findIndex_Some in E as (ele & Hfirst).
        rewrite (delete_found _ _ _ _ _ Hfirst). simpl. rewrite elements_write.
        destruct Hfirst as (Hi & Hp & _). unfold delete_test in Hp.
        rewrite Hk in Hp.
        intros e (q & Hq & He)%elem_of_delete_position.
        destruct (strict_equal (key_of this σ e) x) eqn:Ee; [|done].
        pose proof (proj1 (unique_keys_positions this σ) Hunique q i e ele Hq He Hi)
          as Hdiff.
        apply strict_equal_eq in Ee. apply strict_equal_eq in Hp as Hp'.
        rewrite Ee, Hp' in Hdiff. rewrite Hp' in Hp. congruence.
      - rewrite delete_absent.
        + simpl. apply findIndex_None in E.
          pose proof (proj1 (some_false _ _) E) as H. unfold delete_test in H.
          by rewrite Hk in H.
        + by apply some_false, findIndex_None. }
    split.
    + unfold has. rewrite Hk. apply some_false. intros e He.
      rewrite key_of_delete. by apply Hnone.
    + unfold get. rewrite (get_loop_ext this σ) by apply key_of_delete.
      by apply get_loop_absent.
  - intros r Hnodup. apply has_object_false.
    destruct (Array.findIndex (delete_test this σ (VObject r)) (elements this σ))
      as [i|] eqn:E.
    + apply findIndex_Some in E as (ele & Hfirst).
      rewrite (delete_found _ _ _ _ _ Hfirst). simpl. rewrite elements_write.
      destruct Hfirst as (Hi & Hp & _). unfold delete_test in Hp. simpl in Hp.
      apply Pos.eqb_eq in Hp. subst ele.
      intros (q & Hq & He)%elem_of_delete_position.
      apply Hq. by eapply NoDup_lookup.
    + rewrite delete_absent.
      * simpl. apply findIndex_None in E.
        pose proof (proj1 (some_false _ _) E) as H.
        intros Hr. specialize (H r Hr). unfold delete_test in H. simpl in H.
        by rewrite Pos.eqb_refl in H.
      * by apply some_false, findIndex_None.
Qed.

Lemma delete_then_lookup_witness :
  get Example.Users (snd (delete Example.Users Example.heap (VNumber (Num 2))))
    (VNumber (Num 2)) = VUndefined ∧
  has Example.Users (snd (delete Example.Users Example.heap (VObject Example.bob)))
    (VObject Example.bob) = false.
Proof.
  destruct (delete_then_lookup Example.Users Example.heap) as [Hkey Hobj].
  split.
  - apply (Hkey (VNumber (Num 2))); reflexivity.
  - apply Hobj. apply (bool_decide_unpack _). by vm_compute.
Defined.

(** X4: [add(r)] that appends [r] (it is not stored and [has] finds no
    element with its key), followed by [delete(r)], returns the key of [r]
    and leaves the store as it was before the two calls. *)
Theorem add_then_delete (this : t) (σ : store) (r : loc) :
  is_Some (arrays σ !! hash_values this) →
  has this σ (VObject r) = false →
  has this σ (key_of this σ r) = false →
  delete this (snd (add this σ r)) (VObject r) = (key_of this σ r, σ).
Proof.
  intros Hsome Hr Hk.
  assert (Hadd : snd (add this σ r)
                 = write_array σ (hash_values this) (elements this σ ++ [r])).
  { unfold add. by rewrite Hr, Hk. }
  rewrite Hadd.
  rewrite (delete_found _ _ _ (length (elements this σ)) r).
  - change (isKey (VObject r)) with false. cbv iota.
    rewrite elements_write.
    rewrite (delete_middle (elements this σ) [] r), app_nil_r.
    rewrite write_write_array. f_equal. by apply write_array_same.
  - rewrite elements_write. unfold delete_test. simpl.
    split; [|split; [by apply Pos.eqb_eq|]].
    + by apply list_lookup_middle.
    + intros j y Hj Hy. rewrite lookup_app_l in Hy by done.
      apply Pos.eqb_neq. intros ->. apply has_object_false in Hr.
      apply Hr, list_elem_of_lookup. eauto.
Qed.

Lemma add_then_delete_witness :
  delete Example.Users (snd (add Example.Users Example.heap Example.yousef))
    (VObject Example.yousef)
  = (VNumber (Num 4), Example.heap).
Proof.
  apply (add_then_delete Example.Users Example.heap Example.yousef).
  - by eexists.
  - reflexivity.
  - reflexivity.
Defined.

(** X5: [add] never makes the instance smaller: the size is one more when
    [has] finds neither the object nor its key, and the same otherwise. *)
Theorem add_size (this : t) (σ : store) (r : loc) :
  size this (snd (add this σ r)) =
    if has this σ (VObject r) || has this σ (key_of this σ r)
    then size this σ else S (size this σ).
Proof.
  unfold size. rewrite add_elements.
  destruct (has this σ (VObject r)); [done|].
  destruct (has this σ (key_of this σ r)); simpl.
  - destruct (Array.findIndex _ (elements this σ)); simpl; [|done].
    apply length_insert.
  - rewrite length_app. simpl. lia.
Qed.

(** ** What the methods keep and what they leave alone *)

Section Frames.
Implicit Types (this : t) (σ : store) (r : loc) (x : value) (b : aloc).

Lemma elem_of_list_insert {A} (l : list A) i (x z : A) :
  z ∈ <[i := x]> l → z = x ∨ z ∈ l.
Proof.
  revert i. induction l as [|y l IH]; intros [|i] Hz; simpl in *.
  - by right.
  - by right.
  - apply elem_of_cons in Hz as [->|Hz]; [by left|]. right. by right.
  - apply elem_of_cons in Hz as [->|Hz]; [right; left|].
    destruct (IH _ Hz); [by left|]. right. by right.
Qed.

Lemma NoDup_insert_new {A} (l : list A) i (x : A) :
  NoDup l → x ∉ l → NoDup (<[i := x]> l).
Proof.
  revert i. induction l as [|y l IH]; intros [|i] Hl Hx; simpl; try done.
  - apply NoDup_cons in Hl as [Hy Hl]. apply NoDup_cons. split; [|done].
    intros H. apply Hx. by right.
  - apply NoDup_cons in Hl as [Hy Hl]. apply NoDup_cons. split.
    + intros [->|H]%elem_of_list_insert; [|done]. apply Hx. left.
    + apply IH; [done|]. intros H. apply Hx. by right.
Qed.

Lemma add_other_array this σ r b :
  b ≠ hash_values this → read_array (snd (add this σ r)) b = read_array σ b.
Proof.
  intros Hb. unfold add. destruct (has this σ (VObject r)); simpl; [done|].
  destruct (has this σ (key_of this σ r)); simpl;
    by apply read_write_array_ne.
Qed.

Lemma delete_other_array this σ x b :
  b ≠ hash_values this → read_array (snd (delete this σ x)) b = read_array σ b.
Proof.
  intros Hb.
  destruct (Array.findIndex (delete_test this σ x) (elements this σ))
    as [i|] eqn:E.
  - apply findIndex_Some in E as (ele & Hfirst).
    rewrite (delete_found _ _ _ _ _ Hfirst). simpl. by apply read_write_array_ne.
  - rewrite delete_absent; [done|]. by apply some_false, findIndex_None.
Qed.

Lemma clear_existing_array this σ b :
  is_Some (arrays σ !! b) → read_array (snd (clear this σ)) b = read_array σ b.
Proof.
  intros Hsome. unfold clear. simpl. apply read_write_array_ne.
  intros Heq. apply (is_fresh (dom (arrays σ))). rewrite Heq.
  by apply elem_of_dom.
Qed.

Lemma key_of_same this that σ τ l :
  hash_uniqueProperty that = hash_uniqueProperty this →
  objects τ = objects σ →
  key_of that τ l = key_of this σ l.
Proof.
  intros Hp Ho. unfold key_of, get_field, read_object. by rewrite Hp, Ho.
Qed.

Lemma step_objects this σ o :
  own_operation o = true → objects (snd (step (this, σ) o)) = objects σ.
Proof.
  destruct o; simpl; try done; intros _.
  - apply add_objects.
  - apply delete_objects.
Qed.

Lemma step_keeps_unique_keys this σ o :
  own_operation o = true → adds_key this σ o = true →
  unique_keys this σ →
  unique_keys (fst (step (this, σ) o)) (snd (step (this, σ) o)).
Proof.
  destruct o; simpl; try done; intros _ Hk Hunique.
  - rewrite add_returns_this. by apply add_keeps_unique_keys.
  - by apply delete_keeps_unique_keys.
  - apply clear_keeps_unique_keys.
Qed.
End Frames.

(** X6: an instance that holds no object twice still holds no object twice
    after [add], whatever the object and its key, after [delete] and after
    [clear]. *)
Theorem no_object_stored_twice (this : t) (σ : store) :
  NoDup (elements this σ) →
  (∀ r, NoDup (elements this (snd (add this σ r)))) ∧
  (∀ x, NoDup (elements this (snd (delete this σ x)))) ∧
  NoDup (elements (fst (clear this σ)) (snd (clear this σ))).
Proof.
  intros Hnodup. split; [|split].
  - intros r. rewrite add_elements.
    destruct (has this σ (VObject r)) eqn:Hr; [done|].
    apply has_object_false in Hr.
    destruct (has this σ (key_of this σ r)).
    + destruct (Array.findIndex _ (elements this σ)); simpl; [|done].
      by apply NoDup_insert_new.
    + apply NoDup_app. split; [done|]. split; [|apply NoDup_singleton].
      intros y Hy ->%list_elem_of_singleton. done.
  - intros x. destruct (delete_elements this σ x) as [-> | (i & _ & ->)]; [done|].
    eapply sublist_NoDup; [|apply sublist_delete]. done.
  - rewrite clear_elements. apply NoDup_nil_2.
Qed.

Lemma no_object_stored_twice_witness :
  NoDup (elements Example.Users (snd (add Example.Users Example.heap Example.yousef))).
Proof.
  apply (no_object_stored_twice Example.Users Example.heap).
  apply (bool_decide_unpack _). by vm_compute.
Defined.

(** X7: no method writes to an object; [add] and [delete] write to no array
    but the one of the instance; and [clear] writes to no array that
    exists, so the array the instance had, which may be the one given to
    the constructor, keeps its elements. *)
Theorem methods_write_only_their_array (this : t) (σ : store) (o : operation) :
  own_operation o = true →
  objects (snd (step (this, σ) o)) = objects σ ∧
  ∀ b, is_Some (arrays σ !! b) →
       b ≠ hash_values this ∨ o = OpClear →
       read_array (snd (step (this, σ) o)) b = read_array σ b.
Proof.
  intros Hown. split; [by apply step_objects|].
  intros b Hsome Hb. destruct o as [| |r|x| | | | | | |]; try done.
  - destruct Hb as [Hb|]; [|done].
    change (step (this, σ) (OpAdd r)) with (add this σ r).
    by apply add_other_array.
  - destruct Hb as [Hb|]; [|done].
    change (snd (step (this, σ) (OpDelete x))) with (snd (delete this σ x)).
    by apply delete_other_array.
  - change (step (this, σ) OpClear) with (clear this σ).
    by apply clear_existing_array.
Qed.

Lemma methods_write_only_their_array_witness :
  read_array (snd (clear Example.Users Example.heap)) Example.users_array
  = [Example.ahmed; Example.sara; Example.bob].
Proof.
  apply (proj2 (methods_write_only_their_array Example.Users Example.heap OpClear
                  eq_refl) Example.users_array).
  - by eexists.
  - by right.
Defined.

(** X8: from an instance whose keys differ from one another, any sequence
    of calls of the methods, with no assignment by code outside in between
    and with [add] given only objects whose key is a string or a number,
    leads to an instance whose keys differ from one another. *)
Theorem run_keeps_unique_keys (ops : list operation) (this : t) (σ : store) :
  unique_keys this σ →
  (∀ o, o ∈ ops → own_operation o = true ∧ adds_key this σ o = true) →
  unique_keys (fst (run ops (this, σ))) (snd (run ops (this, σ))).
Proof.
  revert this σ. induction ops as [|o ops IH]; intros this σ Hunique Hops;
    [done|].
  change (run (o :: ops) (this, σ)) with (run ops (step (this, σ) o)).
  destruct (Hops o) as [Hown Hadd]; [left|].
  pose proof (step_keeps_unique_keys this σ o Hown Hadd Hunique) as Hstep.
  pose proof (step_objects this σ o Hown) as Hobjects.
  pose proof (step_uniqueProperty this σ o) as Hproperty.
  destruct (step (this, σ) o) as [this' σ']. simpl in *.
  apply IH; [done|]. intros o' Ho'.
  destruct (Hops o') as [Hown' Hadd']; [by right|]. split; [done|].
  destruct o'; try done. simpl in *.
  by rewrite (key_of_same this this' σ σ').
Qed.

Lemma run_keeps_unique_keys_witness :
  unique_keys
    (fst (run [OpAdd Example.yousef; OpDelete (VNumber (Num 1)); OpClear;
               OpAdd Example.sara]
            (Example.Users, Example.heap)))
    (snd (run [OpAdd Example.yousef; OpDelete (VNumber (Num 1)); OpClear;
               OpAdd Example.sara]
            (Example.Users, Example.heap))).
Proof.
  apply (run_keeps_unique_keys _ Example.Users Example.heap).
  - reflexivity.
  - intros o Ho. each_element Ho ltac:(split; reflexivity).
Defined.

(** ** The iterators together *)

(** X9: in a store that does not change, a loop over [values()] yields the
    elements in the order of the array; a loop over [entries()] yields pairs
    whose first components are what a loop over [keys()] yields and whose
    second components are what a loop over [values()] yields; and the
    instance iterated itself gives what [entries()] gives. *)
Theorem iterators_agree (this : t) (σ : store) (n : nat) :
  size this σ < n →
  fst (collect n σ (values this σ)) = elements this σ ∧
  map fst (fst (own_collect n (entries this σ))) = fst (own_collect n (keys this σ)) ∧
  map snd (fst (own_collect n (entries this σ))) = fst (collect n σ (values this σ)) ∧
  fst (own_collect n (iterator this σ)) = fst (own_collect n (entries this σ)).
Proof.
  intros Hn. unfold size, elements in Hn.
  assert (Hvalues : fst (collect n σ (values this σ)) = elements this σ).
  { unfold values. rewrite collect_drop by lia. done. }
  assert (Hentries : fst (own_collect n (entries this σ))
                     = map (λ ele, (key_of this σ ele, ele)) (elements this σ)).
  { apply own_collect_all. unfold Array.map. by rewrite length_fmap. }
  assert (Hkeys : fst (own_collect n (keys this σ))
                  = map (key_of this σ) (elements this σ)).
  { apply own_collect_all. unfold Array.map. by rewrite length_fmap. }
  rewrite Hvalues, Hentries, Hkeys. split; [done|].
  split; [|split; [|done]].
  - rewrite map_map. done.
  - rewrite map_map. simpl. apply map_id.
Qed.

Lemma iterators_agree_witness :
  fst (collect 4 Example.heap (values Example.Users Example.heap))
  = [Example.ahmed; Example.sara; Example.bob].
Proof.
  apply (iterators_agree Example.Users Example.heap 4). vm_compute. lia.
Defined.

(** X10: once a loop over [values()] has run to the end, the iterator yields
    nothing more, in whatever store it is asked again: objects added
    afterwards are not yielded. *)
Theorem exhausted_iterator_stays_exhausted
    (this : t) (σ τ : store) (n m : nat) :
  size this σ < n →
  fst (collect m τ (snd (collect n σ (values this σ)))) = [].
Proof.
  intros Hn. unfold size, elements in Hn. unfold values.
  rewrite collect_drop by lia. simpl. by destruct m.
Qed.

Lemma exhausted_iterator_stays_exhausted_witness :
  fst (collect 5 (snd (add Example.Users Example.heap Example.yousef))
         (snd (collect 4 Example.heap (values Example.Users Example.heap))))
  = [].
Proof.
  apply (exhausted_iterator_stays_exhausted Example.Users Example.heap).
  vm_compute. lia.
Defined.

(** ** [toString] and [forEach] *)



Section ForEach.
Context {St : Type}.
Implicit Types (this : t) (σ : store) (w : t * store * St).

(** The loop, while the callback leaves the positions the loop goes
    through as they were. *)
Lemma forEach_loop_fold (a : aloc) (callbackfn : callback St) arr :
  (∀ receiver ele key w,
     take (length arr) (read_array (snd (fst w)) a) = arr →
     take (length arr) (read_array (snd (fst (callbackfn receiver ele key w))) a)
     = arr) →
  ∀ n k w,
    k + n = length arr →
    take (length arr) (read_array (snd (fst w)) a) = arr →
    forEach_loop a callbackfn k n w
    = foldl (λ w ele,
               callbackfn VUndefined ele
                 (key_of (fst (fst w)) (snd (fst w)) ele) w)
        w (drop k arr).
Proof.
  intros Hframe n. induction n as [|n IH]; intros k w Hk Harr.
  - rewrite drop_ge by lia. done.
  - assert (Hlookup : read_array (snd (fst w)) a !! k = arr !! k).
    { rewrite <- (lookup_take_lt (read_array (snd (fst w)) a) (length arr) k)
        by lia.
      by rewrite Harr. }
    destruct (arr !! k) as [ele|] eqn:E.
    + simpl. rewrite Hlookup, (drop_S _ _ _ E). simpl.
      apply IH; [lia|]. by apply Hframe.
    + apply lookup_ge_None in E. lia.
Qed.
End ForEach.

(** X12: with a callback that leaves the elements the instance has at the
    call of [forEach] at their positions (it may assign to the objects and
    append to the array), [forEach] calls it exactly once for each of these
    elements, in the order of the array and not for appended ones, with the
    key the element has when its turn comes, and with [undefined] as
    receiver, whatever [thisArg] is. *)
Theorem forEach_visits_in_order {St : Type}
    (this : t) (σ : store) (s : St) (callbackfn : callback St) (thisArg : value) :
  (∀ receiver ele key w,
     take (size this σ) (read_array (snd (fst w)) (hash_values this))
     = elements this σ →
     take (size this σ)
       (read_array (snd (fst (callbackfn receiver ele key w))) (hash_values this))
     = elements this σ) →
  forEach this σ s callbackfn thisArg
  = foldl (λ w ele,
             callbackfn VUndefined ele
               (key_of (fst (fst w)) (snd (fst w)) ele) w)
      (this, σ, s) (elements this σ).
Proof.
  intros Hframe. unfold forEach.
  rewrite (forEach_loop_fold _ _ (elements this σ)); [done|done|lia|].
  simpl. apply take_ge. done.
Qed.

Lemma forEach_visits_in_order_witness :
  snd (forEach Example.Users Example.heap [] Example.note_and_push
         (VString "context"))
  = [VNumber (Num 1); VNumber (Num 2); VNumber (Num 3)] ∧
  length (read_array
            (snd (fst (forEach Example.Users Example.heap []
                         Example.note_and_push (VString "context"))))
            Example.users_array) = 6.
Proof.
  rewrite (forEach_visits_in_order Example.Users Example.heap []
             Example.note_and_push (VString "context")).
  - split; reflexivity.
  - intros receiver ele key [[m ρ] s] H.
    unfold Example.note_and_push. cbn [fst snd] in *.
    change (hash_values Example.Users) with Example.users_array in *.
    rewrite read_write_array. unfold Array.push.
    rewrite read_array_set_field.
    rewrite take_app_le; [done|].
    apply (f_equal length) in H. rewrite length_take in H.
    change (size Example.Users Example.heap) with 3 in *.
    change (length (elements Example.Users Example.heap)) with 3 in H. lia.
Defined.

(** ** The constructor's array and the values that are no keys *)

(** X13: the constructor keeps the array it is given, with no copy.  An
    object that code outside pushes onto that array is stored in the
    instance, whose size grows by one; an object that [add] appends is in
    the array of the caller; and two instances made from the same array
    have the same elements after an [add] through one of them. *)
Theorem constructor_shares_the_array
    (objects : aloc) (property other : string) (σ : store) (r : loc) :
  let this := constructor objects property in
  let pushed := write_array σ objects (Array.push (read_array σ objects) r) in
  has this σ (VObject r) = false →
  has this σ (key_of this σ r) = false →
  (has this pushed (VObject r) = true ∧ size this pushed = S (size this σ)) ∧
  read_array (snd (add this σ r)) objects = read_array σ objects ++ [r] ∧
  elements (constructor objects other) (snd (add this σ r))
  = elements this (snd (add this σ r)).
Proof.
  intros this pushed Hr Hk. split; [split|split].
  - apply has_object. unfold pushed, elements. simpl.
    rewrite read_write_array. apply elem_of_app. right. left.
  - unfold size, pushed, elements. simpl. rewrite read_write_array.
    unfold Array.push. rewrite length_app. simpl. lia.
  - change (read_array (snd (add this σ r)) objects)
      with (elements this (snd (add this σ r))).
    by rewrite add_elements, Hr, Hk.
  - done.
Qed.

Lemma constructor_shares_the_array_witness :
  read_array (snd (add Example.Users Example.heap Example.yousef))
    Example.users_array
  = [Example.ahmed; Example.sara; Example.bob; Example.yousef].
Proof.
  apply (constructor_shares_the_array Example.users_array "id" "name"
           Example.heap Example.yousef); reflexivity.
Defined.

(** X14: a value that is neither a string, nor a number, nor an object (a
    [bigint], a boolean, [null], [undefined]) is never found by [has] and
    never removed by [delete], which returns [undefined] and leaves the
    store as it is, also when an element has that value as its key and
    [get] returns the element. *)
Theorem values_that_are_no_keys (this : t) (σ : store) (x : value) :
  isKey x = false →
  (∀ l, x ≠ VObject l) →
  has this σ x = false ∧ delete this σ x = (VUndefined, σ).
Proof.
  intros Hk Hobject.
  assert (Hnone : ∀ e, e ∈ elements this σ → strict_equal (VObject e) x = false).
  { intros e _. destruct x; try done. by destruct (Hobject l). }
  split.
  - unfold has. rewrite Hk. by apply some_false.
  - apply delete_absent. unfold delete_test. by rewrite Hk.
Qed.

Lemma values_that_are_no_keys_witness :
  (has Example.Accounts Example.ledger (VBigInt 10) = false ∧
   delete Example.Accounts Example.ledger (VBigInt 10)
   = (VUndefined, Example.ledger)) ∧
  get Example.Accounts Example.ledger (VBigInt 10) = VObject Example.first_account.
Proof.
  split; [|reflexivity].
  apply (values_that_are_no_keys Example.Accounts Example.ledger (VBigInt 10));
    [reflexivity | discriminate].
Defined.
